(** * pciSeq: preprocessing and entry point, verified against the Python source

    The development embeds [pciSeq/app.py] and
    [pciSeq/src/preprocess/spot_labels.py] as Rocq functions.  Python
    exceptions become the [Raise] branch of a result type, the module-level
    dictionary [config.DEFAULT] and the file system become an explicit
    [world] threaded through [init] and [fit], and the sparse label image is
    a record of its shape and stored entries.  Integers are unbounded,
    except where the code casts to a fixed-width type.  [remap_labels]
    shuffles the labels at random: the shuffle is a parameter of its
    embedding.

    The inference engine itself ([cell_call/main.py]) is not part of the
    embedded sources: [fit] takes it as a parameter, and module [Engine]
    models it from its written description. *)

From Stdlib Require Import ZArith QArith Qabs Qminmax Qpower Qround.
From Stdlib Require Import Floats.SpecFloat.
From stdpp Require Import gmap strings list sorting.

Set Warnings "-register-all".
Open Scope Z_scope.

(** ** Python values and exceptions *)

Module Py.

(** The exceptions the embedded code can raise. *)
Inductive exn : Type :=
| AssertionError
| TypeError
| IndexError
| ValueError
| Exception
| OSError.  (* what a file-system operation may raise *)

Inductive result (A : Type) : Type :=
| Ok (a : A)
| Raise (e : exn).
Arguments Ok {A} a.
Arguments Raise {A} e.

Definition rbind {A B} (r : result A) (k : A -> result B) : result B :=
  match r with
  | Ok a => k a
  | Raise e => Raise e
  end.

(** [assert b]. *)
Definition assert (b : bool) : result unit :=
  if b then Ok tt else Raise AssertionError.

Fixpoint mapM {A B} (f : A -> result B) (l : list A) : result (list B) :=
  match l with
  | [] => Ok []
  | a :: l' =>
      rbind (f a) (fun b => rbind (mapM f l') (fun bs => Ok (b :: bs)))
  end.

(** The values a user can put in the [opts] dictionary.  A float is an
    IEEE-754 value; its payload is never inspected by the code below. *)
Inductive pyval : Type :=
| PyNone
| PyBool (b : bool)
| PyInt (n : Z)
| PyFloat (f : spec_float)
| PyStr (s : string)
| PyList (l : list pyval)
| PyTuple (l : list pyval).

(** [isinstance(v, (int, float, list))].  [bool] is a subclass of [int]. *)
Definition isinstance_int_float_list (v : pyval) : bool :=
  match v with
  | PyBool _ | PyInt _ | PyFloat _ | PyList _ => true
  | PyNone | PyStr _ | PyTuple _ => false
  end.

(** A dictionary literal handed to [init]: its items in insertion order,
    which is the order [opts.items()] yields them. *)
Definition dict : Type := list (string * pyval).

Definition keys (d : dict) : gset string := list_to_set (d.*1).

End Py.

Export Py.

(** [result] is a monad in stdpp's sense, so the code below is written with
    [x ← c; k]. *)
#[global] Instance result_ret : MRet result := @Ok.
#[global] Instance result_bind : MBind result := λ A B k r, rbind r k.

(** ** [pciSeq/src/preprocess/spot_labels.py] *)

Module SpotLabels.

(** *** Arrays and sparse matrices *)

(** A 2-D numpy array of integers: its shape (rows, columns) and its
    elements in row-major order, as numpy stores them. *)
Record ndarray : Type := { nd_shape : nat * nat; nd_flat : list Z }.

(** [a[i, j]] for an in-range position. *)
Definition nd_get (a : ndarray) (i j : nat) : option Z :=
  if decide (i < (nd_shape a).1 ∧ j < (nd_shape a).2)%nat
  then nd_flat a !! (i * (nd_shape a).2 + j)%nat
  else None.

(** [a.flatten()] and [v.reshape(shape)]. *)
Definition flatten (a : ndarray) : list Z := nd_flat a.
Definition reshape (v : list Z) (sh : nat * nat) : ndarray :=
  {| nd_shape := sh; nd_flat := v |}.

(** [a.astype(np.int32)] and [a.astype(np.uint32)] wrap around. *)
Definition wrap_int32 (v : Z) : Z := (v + 2 ^ 31) mod 2 ^ 32 - 2 ^ 31.
Definition wrap_uint32 (v : Z) : Z := v mod 2 ^ 32.
Definition astype_int32 (a : ndarray) : ndarray :=
  {| nd_shape := nd_shape a; nd_flat := wrap_int32 <$> nd_flat a |}.
Definition astype_uint32 (a : ndarray) : ndarray :=
  {| nd_shape := nd_shape a; nd_flat := wrap_uint32 <$> nd_flat a |}.

(** A scipy [coo_matrix]: the shape and the stored (row, column, value)
    triples, i.e. the parallel arrays [coo.row], [coo.col], [coo.data]. *)
Record coo_matrix : Type :=
  { shape : nat * nat; entries : list (nat * nat * Z) }.

Definition data (coo : coo_matrix) : list Z := (λ e, e.2) <$> entries coo.

(** scipy rejects a [coo_matrix] with a stored index outside its shape. *)
Definition coo_wf (coo : coo_matrix) : Prop :=
  Forall (λ e : nat * nat * Z,
            (e.1.1 < (shape coo).1 ∧ e.1.2 < (shape coo).2)%nat)
         (entries coo).

Definition sumZ (l : list Z) : Z := foldr Z.add 0 l.

(** The dense value at (i, j): stored entries at the same position are
    summed, as [toarray] and [tocsr] do. *)
Definition coo_at (coo : coo_matrix) (i j : nat) : Z :=
  sumZ ((λ e : nat * nat * Z, e.2) <$>
        List.filter (λ e : nat * nat * Z,
                       bool_decide (e.1.1 = i) && bool_decide (e.1.2 = j))
                    (entries coo)).

(** [coo.toarray()]. *)
Definition toarray (coo : coo_matrix) : ndarray :=
  {| nd_shape := shape coo;
     nd_flat := i ← seq 0 (shape coo).1;
                (λ j, coo_at coo i j) <$> seq 0 (shape coo).2 |}.

(** [coo_matrix(a)] for a dense array: the non-zero elements in row-major
    order. *)
Definition coo_matrix_of_array (a : ndarray) : coo_matrix :=
  {| shape := nd_shape a;
     entries :=
       List.filter (λ e : nat * nat * Z, negb (bool_decide (e.2 = 0)))
         (imap (λ p v, ((p / (nd_shape a).2)%nat, (p mod (nd_shape a).2)%nat, v))
               (nd_flat a)) |}.

(** A scipy [csr_matrix]: per row, the stored (column, value) pairs. *)
Record csr_matrix : Type :=
  { csr_shape : nat * nat; csr_rows : list (list (nat * Z)) }.

(** [coo.tocsr()]. *)
Definition tocsr (coo : coo_matrix) : csr_matrix :=
  {| csr_shape := shape coo;
     csr_rows :=
       (λ i, (λ e : nat * nat * Z, (e.1.2, e.2)) <$>
             List.filter (λ e : nat * nat * Z, bool_decide (e.1.1 = i))
                         (entries coo))
       <$> seq 0 (shape coo).1 |}.

(** [csr_matrix(a)] for a dense array. *)
Definition csr_matrix_of_array (a : ndarray) : csr_matrix :=
  tocsr (coo_matrix_of_array a).

(** The element of a csr matrix at an in-range position. *)
Definition csr_at (m : csr_matrix) (i j : nat) : Z :=
  sumZ ((λ e : nat * Z, e.2) <$>
        List.filter (λ e : nat * Z, bool_decide (e.1 = j))
                    (default [] (csr_rows m !! i))).

(** Index validation of scipy's sparse indexing along an axis of length
    [n]: an index in [-n, n) is accepted, a negative one counts from the
    end, anything else raises [IndexError]. *)
Definition check_index (n : nat) (i : Z) : result nat :=
  if (- Z.of_nat n <=? i) && (i <? Z.of_nat n)
  then Ok (Z.to_nat (if i <? 0 then i + Z.of_nat n else i))
  else Raise IndexError.

(** [m[ys, xs]] for two index arrays of the same length, one element per
    pair. *)
Definition csr_getitem (m : csr_matrix) (yx : list (Z * Z)) : result (list Z) :=
  mapM (λ p : Z * Z,
          i ← check_index (csr_shape m).1 p.1;
          j ← check_index (csr_shape m).2 p.2;
          Ok (csr_at m i j)) yx.

(** A segmented cell (a non-zero label [l]) contains the pixel at row
    [i], column [j] of the label image. *)
Definition cell_contains (img : ndarray) (l : Z) (i j : nat) : Prop :=
  l ≠ 0 ∧ nd_get img i j = Some l.

(** *** numpy helpers *)

(** [l.max()]: numpy raises [ValueError] on an empty array. *)
Definition np_max (l : list Z) : result Z :=
  match l with
  | [] => Raise ValueError
  | v :: l' => Ok (foldl Z.max v l')
  end.

(** [len(set(l))]. *)
Definition len_set (l : list Z) : nat := length (remove_dups l).

(** [np.unique(l)]: the distinct values in increasing order. *)
Definition np_unique (l : list Z) : list Z := merge_sort Z.le (remove_dups l).

(** Position of [v] in [u]. *)
Fixpoint index_of (v : Z) (u : list Z) : nat :=
  match u with
  | [] => 0
  | w :: u' => if decide (v = w) then 0 else S (index_of v u')
  end.

(** [np.unique(l, return_inverse=True)]: the sorted distinct values [u]
    and, for each element of [l], its position in [u]. *)
Definition np_unique_inverse (l : list Z) : list Z * list Z :=
  let u := np_unique l in
  (u, (λ v, Z.of_nat (index_of v u)) <$> l).

(** *** The source functions *)

(** A row of the [spots] data frame passed to [fit]. *)
Record spot : Type := { Gene : string; x : Z; y : Z }.

(** What a caller may pass as [label_image] to [inside_cell]. *)
Inductive label_image : Type :=
| ImgCoo (coo : coo_matrix)
| ImgArray (a : ndarray)
| ImgCsr (m : csr_matrix)
| ImgOther.

Definition inside_cell (label_image : label_image) (spots : list spot)
  : result (list Z) :=
  label_image ←
    match label_image with
    | ImgCoo coo => Ok (tocsr coo)
    | ImgArray a => Ok (csr_matrix_of_array a)
    | ImgCsr m => Ok m
    | ImgOther => Raise Exception
    end;
  (* m = label_image[spots.y, spots.x] *)
  m ← csr_getitem label_image ((λ s, (y s, x s)) <$> spots);
  (* out = np.asarray(m); return out[0]: for n >= 1 spots m is a 1-by-n
     matrix and out[0] its row; for an empty table m is an empty sparse
     matrix, out has no axis and out[0] raises IndexError *)
  match m with
  | [] => Raise IndexError
  | _ :: _ => Ok m
  end.

(** What [remap_labels] can raise: an exception of [exn], or the
    [KeyError] of a dictionary lookup, with the key that is missing. *)
Inductive remap_exn : Type :=
| RemapExn (e : exn)
| KeyError (key : Z).

(** [a.astype(np.uint64)] wraps around. *)
Definition wrap_uint64 (v : Z) : Z := v mod 2 ^ 64.

(** [dict(zip(keys, vals))]: the pairs are entered in order, a later pair
    replaces an earlier one with the same key. *)
Definition dict_of_zip (keys vals : list Z) : gmap Z Z :=
  foldl (λ d kv, <[kv.1 := kv.2]> d) ∅ (zip keys vals).

(** [[d[x] for x in l]]: the first missing key raises [KeyError]. *)
Fixpoint lookup_all (d : gmap Z Z) (l : list Z) : remap_exn + list Z :=
  match l with
  | [] => inr []
  | x :: l' =>
      match d !! x with
      | None => inl (KeyError x)
      | Some v =>
          match lookup_all d l' with
          | inl e => inl e
          | inr vs => inr (v :: vs)
          end
      end
  end.

(** [remap_labels].  [np.random.shuffle] rearranges [_vals] in a way the
    random generator decides; [shuffle] stands for that rearrangement. *)
Definition remap_labels (shuffle : list Z → list Z) (coo : coo_matrix)
  : remap_exn + coo_matrix :=
  match np_max (data coo) with
  | Raise e => inl (RemapExn e)
  | Ok coo_max =>
      let _keys := (λ k, 1 + k) <$> seqZ 0 coo_max in
      let _vals := shuffle _keys in
      let d := dict_of_zip _keys _vals in
      match lookup_all d (data coo) with
      | inl e => inl e
      | inr new_data =>
          inr {| shape := shape coo;
                 entries := zip_with (λ e v, (e.1, wrap_uint64 v))
                                     (entries coo) new_data |}
      end
  end.

Definition reorder_labels (coo : coo_matrix) : coo_matrix :=
  let label_image := toarray coo in
  let '(_, idx) := np_unique_inverse (flatten label_image) in
  coo_matrix_of_array (reshape idx (nd_shape label_image)).

(** Lines 60-62 of [stage_data]: the label image the rest of the function
    works on. *)
Definition relabel_if_needed (coo : coo_matrix) : result coo_matrix :=
  m ← np_max (data coo);
  if bool_decide (m ≠ Z.of_nat (len_set (data coo)))
  then Ok (reorder_labels coo)
  else Ok coo.

(** The cell labels of a dense image: its distinct non-zero values. *)
Definition cell_labels (a : ndarray) : gset Z :=
  list_to_set (List.filter (λ v, negb (bool_decide (v = 0))) (nd_flat a)).

(** [new] renames the cells of [old] to 1..N: same shape, background
    exactly where it was, equal labels exactly where labels were equal, and
    the labels in use are 1..N for the N cell labels of [old]. *)
Definition relabelled (old new : ndarray) : Prop :=
  nd_shape new = nd_shape old ∧
  Forall2 (λ v v', v' = 0 ↔ v = 0) (nd_flat old) (nd_flat new) ∧
  (∀ p q v w v' w',
     nd_flat old !! p = Some v → nd_flat old !! q = Some w →
     nd_flat new !! p = Some v' → nd_flat new !! q = Some w' →
     (v' = w' ↔ v = w)) ∧
  (∀ k, k ∈ cell_labels new ↔ 1 ≤ k ≤ Z.of_nat (size (cell_labels old))).

(** A [coo_matrix] as built from a label image: stored positions in range
    and pairwise distinct, stored labels positive. *)
Definition coo_canonical (coo : coo_matrix) : Prop :=
  coo_wf coo ∧
  NoDup ((λ e : nat * nat * Z, e.1) <$> entries coo) ∧
  Forall (λ e : nat * nat * Z, 0 < e.2) (entries coo).

(** Lines 67-69 of [stage_data]. *)
Definition mask (coo : coo_matrix) (s : spot) : bool :=
  let mask_x := (0 <=? x s) && (x s <=? Z.of_nat (shape coo).2) in
  let mask_y := (0 <=? y s) && (y s <=? Z.of_nat (shape coo).1) in
  mask_x && mask_y.

Section StageData.

(** [C] is the type of centroid coordinates (floats) and [P] the type
    of boundary polygons. *)
Context {C P : Type}.

(** One region of [skimage.measure.regionprops]. *)
Record region : Type :=
  { r_label : Z; r_area : Z; r_centroid : C * C }.

(** Rows of the three returned data frames. *)
Record cell_row : Type :=
  { c_label : Z; c_area : Z; c_x : C; c_y : C }.
Record boundary_row : Type := { cell_id : Z; coords : P }.
Record spot_row : Type :=
  { x_global : Z; y_global : Z; label : Z; target : string;
    x_cell : option C; y_cell : option C }.

(** [skimage.measure.regionprops] is an external library and
    [extract_borders_dip] lives in [cell_borders.py]; both are taken as
    given.  [extract_borders_dip] returns rows (label, coords). *)
Variable regionprops : ndarray → result (list region).
Variable extract_borders_dip :
  ndarray → Z → Z → list Z → result (list (Z * P)).

(** [props_df.merge(cell_boundaries)]: inner join on the only shared
    column, [label], in the order of the left frame. *)
Definition merge_cells (props_df : list (Z * Z * C * C))
           (cell_boundaries : list (Z * P)) : list (Z * Z * C * C * P) :=
  p ← props_df;
  (λ b : Z * P, (p, b.2)) <$>
    List.filter (λ b : Z * P, bool_decide (b.1 = p.1.1.1)) cell_boundaries.

(** [spots.merge(cells, how='left', on=['label'])]: every spot is kept,
    once per cell row carrying its label, and once with missing cell
    columns when there is none. *)
Definition merge_spots (spots : list (spot * Z))
           (cells : list (Z * Z * C * C * P)) : list spot_row :=
  s ← spots;
  match List.filter (λ c : Z * Z * C * C * P, bool_decide (c.1.1.1.1 = s.2))
                    cells with
  | [] => [ {| x_global := x s.1; y_global := y s.1; label := s.2;
               target := Gene s.1; x_cell := None; y_cell := None |} ]
  | cs => (λ c : Z * Z * C * C * P,
             {| x_global := x s.1; y_global := y s.1; label := s.2;
                target := Gene s.1;
                x_cell := Some c.1.1.2; y_cell := Some c.1.2 |}) <$> cs
  end.

Definition stage_data (spots : list spot) (coo : coo_matrix)
  : result (list cell_row * list boundary_row * list spot_row) :=
  coo ← relabel_if_needed coo;
  let spots := List.filter (mask coo) spots in
  (* 1. Find which cell the spots lie within *)
  inc ← inside_cell (ImgCsr (tocsr coo)) spots;
  let spots := zip spots inc in
  (* 2. Get cell centroids and area *)
  props ← regionprops (astype_int32 (toarray coo));
  let props_df :=
    (λ d, (r_label d, r_area d, (r_centroid d).2, (r_centroid d).1))
      <$> props in
  (* 3. Get the cell boundaries *)
  cell_boundaries ← extract_borders_dip (astype_uint32 (toarray coo)) 0 0 [0];
  _ ← assert (bool_decide (length props_df = length cell_boundaries)
              && bool_decide (length cell_boundaries
                              = length (np_unique (data coo))));
  _ ← assert (forallb (λ l, bool_decide (l ∈ (λ p : Z * Z * C * C, p.1.1.1) <$> props_df))
                      (List.filter (λ l, 0 <? l) (snd <$> spots)));
  let cells := merge_cells props_df cell_boundaries in
  (* cells.sort_values(...) builds a sorted copy that is dropped *)
  _ ← assert (bool_decide (length cells = length cell_boundaries)
              && bool_decide (length cell_boundaries = length props_df));
  let spots := merge_spots spots cells in
  let _cells :=
    (λ c : Z * Z * C * C * P,
       {| c_label := c.1.1.1.1; c_area := c.1.1.1.2;
          c_x := c.1.1.2; c_y := c.1.2 |}) <$> cells in
  let _cell_boundaries :=
    (λ c : Z * Z * C * C * P,
       {| cell_id := c.1.1.1.1; coords := c.2 |}) <$> cells in
  Ok (_cells, _cell_boundaries, spots).

End StageData.

Arguments region : clear implicits.
Arguments cell_row : clear implicits.
Arguments boundary_row : clear implicits.
Arguments spot_row : clear implicits.

End SpotLabels.

(** ** [pciSeq/app.py] *)

Module App.

Import SpotLabels.

(** The data frames written by [write_to_disk]. *)
Inductive frame (CellData GeneData P : Type) : Type :=
| FrameCells (cellData : CellData)
| FrameGenes (geneData : GeneData)
| FrameBoundaries (cell_boundaries : list (boundary_row P)).
Arguments FrameCells {CellData GeneData P} cellData.
Arguments FrameGenes {CellData GeneData P} geneData.
Arguments FrameBoundaries {CellData GeneData P} cell_boundaries.

(** The one dictionary object [init] works on.  [cfg = config.DEFAULT]
    binds a second name to that object; no copy is made. *)
Inductive dictref : Type := config_DEFAULT_ref.

(** What the code can observe and change outside its arguments: the
    contents of the module-level dictionary [config.DEFAULT], and the file
    system.  Log records go to the console and are left out. *)
Record world (Disk : Type) : Type :=
  { config_DEFAULT : gmap string pyval; disk : Disk }.
Arguments config_DEFAULT {Disk} w.
Arguments disk {Disk} w.

(** Computations that read and write the world and may raise.  The world
    reached when an exception is raised is kept. *)
Definition M (Disk A : Type) : Type := world Disk → result A * world Disk.

#[global] Instance M_ret {Disk} : MRet (M Disk) := λ A a w, (Ok a, w).
#[global] Instance M_bind {Disk} : MBind (M Disk) := λ A B k c w,
  match c w with
  | (Ok a, w') => k a w'
  | (Raise e, w') => (Raise e, w')
  end.

Section App.

Context {C P ScRNAseq CellData GeneData Disk : Type}.

(** Collaborators of [stage_data], see [SpotLabels]. *)
Variable regionprops : ndarray → result (list (region C)).
Variable extract_borders_dip :
  ndarray → Z → Z → list Z → result (list (Z * P)).

(** [VarBayes(_cells, _spots, scRNAseq, ini).run()] of
    [cell_call/main.py]: the inference engine, given the contents of the
    configuration dictionary it is handed.  It performs no file
    output. *)
Variable VarBayes_run :
  list (cell_row C) → list (spot_row C) → ScRNAseq → gmap string pyval →
  result (CellData * GeneData).

(** The file-system operations used by [write_to_disk].  Each one may
    fail and may have changed the disk when it does. *)
Variable temp_dir : string.
Variable os_path_join : string → string → string.
Variable os_path_exists : string → Disk → bool.
Variable os_makedirs : string → Disk → result () * Disk.
Variable to_csv :
  frame CellData GeneData P → string → Disk → result () * Disk.
Variable splitter_mb :
  frame CellData GeneData P → string → Z → Disk → result () * Disk.
Variable content : string → Disk → result () * Disk.

#[local] Abbreviation M := (M Disk).

Definition raise {A} (e : exn) : M A := λ w, (Raise e, w).

(** Run a pure fallible computation. *)
Definition lift {A} (r : result A) : M A := λ w, (r, w).

(** Run a file-system operation. *)
Definition on_disk {A} (op : Disk → result A * Disk) : M A := λ w,
  let '(r, d) := op (disk w) in
  (r, {| config_DEFAULT := config_DEFAULT w; disk := d |}).

(** Reading a dictionary through a reference, [cfg.keys()] and
    [cfg[k] = v]. *)
Definition deref (r : dictref) : M (gmap string pyval) := λ w,
  match r with config_DEFAULT_ref => (Ok (config_DEFAULT w), w) end.
Definition dict_keys (r : dictref) : M (gset string) :=
  d ← deref r; mret (dom d).
Definition setitem (r : dictref) (k : string) (v : pyval) : M () := λ w,
  match r with
  | config_DEFAULT_ref =>
      (Ok (), {| config_DEFAULT := <[k := v]> (config_DEFAULT w);
                 disk := disk w |})
  end.

(** The loop of [init] over [opts.items()]. *)
Fixpoint init_items (cfg : dictref) (items : list (string * pyval)) : M () :=
  match items with
  | [] => mret ()
  | item :: items' =>
      val ← (if isinstance_int_float_list item.2
             then mret item.2
             else raise TypeError);
      setitem cfg item.1 val;;
      init_items cfg items'
  end.

Definition init (opts : option dict) : M dictref :=
  let cfg := config_DEFAULT_ref in
  match opts with
  | Some opts =>
      default_items ← dict_keys cfg;
      let user_items := keys opts in
      lift (assert (bool_decide (user_items ⊆ default_items)));;
      init_items cfg opts;;
      mret cfg
  | None => mret cfg
  end.

(** The contents of a dictionary after [d[k] = v] for each item in turn. *)
Definition assigned (d : gmap string pyval) (items : dict) : gmap string pyval :=
  foldl (λ m item, <[item.1 := item.2]> m) d items.

(** The items the loop of [init] gets through: those before the first
    value that is not an int, a float or a list. *)
Fixpoint accepted (items : dict) : dict :=
  match items with
  | [] => []
  | item :: items' =>
      if isinstance_int_float_list item.2 then item :: accepted items' else []
  end.

Definition write_to_disk (cellData : CellData) (geneData : GeneData)
           (cell_boundaries : list (boundary_row P)) : M () :=
  let out_dir := os_path_join temp_dir "pciSeq" in
  exists_ ← on_disk (λ d, (Ok (os_path_exists out_dir d), d));
  (if negb exists_ then on_disk (os_makedirs out_dir) else mret ());;
  on_disk (to_csv (FrameCells cellData) (os_path_join out_dir "cellData.tsv"));;
  on_disk (to_csv (FrameGenes geneData) (os_path_join out_dir "geneData.tsv"));;
  on_disk (to_csv (FrameBoundaries cell_boundaries)
                  (os_path_join out_dir "cell_boundaries.tsv"));;
  on_disk (splitter_mb (FrameCells cellData) (os_path_join out_dir "cellData") 99);;
  on_disk (content (os_path_join out_dir "cellData"));;
  on_disk (splitter_mb (FrameGenes geneData) (os_path_join out_dir "geneData") 99);;
  on_disk (content (os_path_join out_dir "geneData"));;
  on_disk (splitter_mb (FrameBoundaries cell_boundaries)
                       (os_path_join out_dir "cell_boundaries") 99);;
  on_disk (content (os_path_join out_dir "cell_boundaries")).

Definition cell_type (_cells : list (cell_row C)) (_spots : list (spot_row C))
           (scRNAseq : ScRNAseq) (ini : dictref) : M (CellData * GeneData) :=
  ini ← deref ini;
  lift (VarBayes_run _cells _spots scRNAseq ini).

Definition fit (iss_spots : list spot) (coo : coo_matrix)
           (scRNAseq : ScRNAseq) (opts : option dict)
  : M (CellData * GeneData) :=
  (* 1. get the hyperparameters *)
  cfg ← init opts;
  (* 2. prepare the data *)
  '(_cells, cell_boundaries, _spots) ←
    lift (stage_data regionprops extract_borders_dip iss_spots coo);
  (* 3. cell typing *)
  '(cellData, geneData) ← cell_type _cells _spots scRNAseq cfg;
  let save_data := true in
  (if save_data
   then write_to_disk cellData geneData cell_boundaries
   else mret ());;
  mret (cellData, geneData).

End App.

End App.

(** ** A small instance of the pipeline

    A 2-by-2 label image with labels 5 and 3, three spots, and simple
    stand-ins for the collaborators: regions and borders for cells 1 and 2,
    an engine that counts its inputs, and a disk that records the paths
    written. *)

Module SampleData.

Import SpotLabels App.

Definition coo : coo_matrix :=
  {| shape := (2%nat, 2%nat);
     entries := [(0%nat, 0%nat, 5); (1%nat, 1%nat, 3)] |}.

(** An image with no stored label at all. *)
Definition coo_empty : coo_matrix :=
  {| shape := (2%nat, 2%nat); entries := [] |}.

(** A 1-by-2 image covered by cells 2 and 3, without background. *)
Definition coo_no_background : coo_matrix :=
  {| shape := (1%nat, 2%nat);
     entries := [(0%nat, 0%nat, 2); (0%nat, 1%nat, 3)] |}.

(** A matrix that stores a zero explicitly. *)
Definition coo_explicit_zero : coo_matrix :=
  {| shape := (2%nat, 2%nat);
     entries := [(0%nat, 0%nat, 2); (0%nat, 1%nat, 0)] |}.

Definition spots : list spot :=
  [ {| Gene := "Npy"; x := 1; y := 1 |};
    {| Gene := "Vip"; x := 0; y := 1 |};
    {| Gene := "Cck"; x := 5; y := 1 |} ].

Definition regionprops (a : ndarray) : result (list (region ())) :=
  Ok [ {| r_label := 1; r_area := 1; r_centroid := ((), ()) |};
       {| r_label := 2; r_area := 1; r_centroid := ((), ()) |} ].

Definition extract_borders_dip (a : ndarray) (offset_x offset_y : Z)
           (exclude : list Z) : result (list (Z * ())) :=
  Ok [(1, ()); (2, ())].

(** Stand-ins that follow the image they are given: one region, and one
    boundary row, for each distinct positive value of the image, in
    increasing order of label, with the number of its pixels as area
    (centroids and polygons are left out). *)
Definition regionprops_of_image (a : ndarray) : result (list (region ())) :=
  Ok ((λ l, {| r_label := l;
               r_area := Z.of_nat (length (List.filter (λ v, bool_decide (v = l))
                                                       (nd_flat a)));
               r_centroid := ((), ()) |})
        <$> List.filter (λ v, 0 <? v) (np_unique (nd_flat a))).

Definition extract_borders_of_image (a : ndarray) (offset_x offset_y : Z)
           (exclude : list Z) : result (list (Z * ())) :=
  Ok ((λ l, (l, ())) <$> List.filter (λ v, 0 <? v) (np_unique (nd_flat a))).

Definition VarBayes_run (cells : list (cell_row ())) (spots : list (spot_row ()))
           (scRNAseq : ()) (ini : gmap string pyval) : result (nat * nat) :=
  Ok (length cells, length spots).

Definition write (path : string) (d : list string) : result () * list string :=
  (Ok (), d ++ [path]).

Definition world0 : world (list string) :=
  {| config_DEFAULT := {[ "max_iter" := PyInt 1000 ]}; disk := [] |}.

Definition fit : list spot → coo_matrix → () → option dict → M (list string) (nat * nat) :=
  App.fit regionprops extract_borders_dip VarBayes_run
          "/tmp" (λ a b, a +:+ "/" +:+ b)
          (λ path d, bool_decide (path ∈ d))
          write
          (λ _ path, write path)
          (λ _ path _, write path)
          write.

(** A disk on which no table can be written: [to_csv] raises [OSError]. *)
Definition fit_read_only :
  list spot → coo_matrix → () → option dict → M (list string) (nat * nat) :=
  App.fit regionprops extract_borders_dip VarBayes_run
          "/tmp" (λ a b, a +:+ "/" +:+ b)
          (λ path d, bool_decide (path ∈ d))
          write
          (λ _ path d, (Raise OSError, d))
          (λ _ path _, write path)
          write.

End SampleData.

(** ** The inference engine

    [cell_call/main.py] is not among the embedded sources; the engine is
    modelled from its description in the specification (sections 3, 4 and
    7), over exact rationals. *)

Module Engine.

Open Scope Q_scope.

(** Modelled from the spec: the cell of section 3, whose code is in the
    absent [cell_call] package: a positive label, a centroid and an area. *)
Record cell : Type :=
  { cell_id : Z; centroid_x : Q; centroid_y : Q; area : Q }.

(** Modelled from the spec: the spot of section 3 (absent [cell_call]
    package): a gene name, coordinates and the ordered candidate cells,
    nearest first.  The background pseudo-cell (id 0) is implicit and comes
    last in every posterior vector. *)
Record spot : Type :=
  { gene : string; spot_x : Q; spot_y : Q; candidates : list Z }.

(** Modelled from the spec: the reference count matrix of section 4.1
    (absent [cell_call] package), by gene name (rows) and class name
    (columns). *)
Record reference : Type :=
  { ref_classes : list string; ref_counts : list (string * list Z) }.

(** Modelled from the spec: the hyperparameters of section 6 (absent
    [config.py]). *)
Record hyper : Type :=
  { max_iter : nat; tolerance : Q; misread : Q; class_prior : list Q;
    eff_min : Q; eff_max : Q }.

(** Modelled from the spec: the engine state of section 4.2 (absent
    [cell_call/main.py]): a class-posterior per cell, a candidate-posterior
    per spot, an efficiency factor per gene. *)
Record state : Type :=
  { cell_post : list (list Q); spot_post : list (list Q);
    efficiency : list Q }.

(** Modelled from the spec: the error taxonomy of section 7 (absent
    [cell_call] package).  [SchemaError] is fatal; the other two travel with
    the result. *)
Inductive fatal : Type := SchemaError.
Inductive note : Type := NonConvergenceWarning | DegenerateInputError.

(** Modelled from the spec: what the engine hands to the result assembler
    (section 6, absent [cell_call/main.py]): the final state, the assigned
    neighbour of every spot and the notes raised on the way. *)
Record outcome : Type :=
  { final : state; neighbour : list Z; notes : list note }.

(** Modelled from the spec: the inputs of one run (sections 4 and 6, absent
    [cell_call/main.py]). *)
Record problem : Type :=
  { cells : list cell; spots : list spot; ref : reference; hp : hyper }.

(** Modelled from the spec: what inference works on once the inputs are
    validated (sections 3 and 4.1, absent [cell_call] package): the spots
    whose gene the reference knows, the shared gene vocabulary, and the
    reference classes followed by the generic class. *)
Record model : Type :=
  { m_cells : list cell; m_spots : list spot; m_genes : list string;
    m_classes : list string; m_ref : reference; m_hp : hyper }.

(** The sum of a vector of rationals. *)
Definition sumQ (l : list Q) : Q := foldr Qplus 0 l.

(** Modelled from the spec: "normalize these weights into the posterior"
    (section 4.2, absent [cell_call/main.py]). *)
Definition normalize (ws : list Q) : list Q :=
  (λ w, w / sumQ ws) <$> ws.

(** Modelled from the spec: the posterior of a cell that gets the generic
    class, the last of the class list (section 4.2, failure modes; absent
    [cell_call/main.py]): all mass on the last position. *)
Definition one_hot_last (n : nat) : list Q :=
  replicate (pred n) 0 ++ [1].

(** Modelled from the spec: "clamp to a configurable range" (section 4.2
    step 3, absent [cell_call/main.py]). *)
Definition Qclamp (lo hi q : Q) : Q := Qmax lo (Qmin hi q).

(** The sum of absolute differences of two vectors. *)
Definition dist1 (a b : list Q) : Q :=
  sumQ (zip_with (λ p q, Qabs (p - q)) a b).

(** Modelled from the spec: the change metric of the convergence check,
    "sum of absolute differences in all spot-posteriors and
    cell-posteriors" (section 4.2 step 4, absent [cell_call/main.py]). *)
Definition change (s s' : state) : Q :=
  sumQ (zip_with dist1 (spot_post s) (spot_post s'))
  + sumQ (zip_with dist1 (cell_post s) (cell_post s')).

(** Modelled from the spec: tie-breaking (section 4.2, absent
    [cell_call/main.py]): the position of the largest entry, the earliest
    one among equal entries. *)
Fixpoint argmax_from (best : Q) (besti i : nat) (l : list Q) : nat :=
  match l with
  | [] => besti
  | q :: l' =>
      if Qle_bool q best
      then argmax_from best besti (S i) l'
      else argmax_from q i (S i) l'
  end.
Definition argmax (l : list Q) : nat :=
  match l with
  | [] => 0%nat
  | q :: l' => argmax_from q 0 1 l'
  end.

(** The reference has a row for gene [g]. *)
Definition has_gene (r : reference) (g : string) : bool :=
  bool_decide (g ∈ (ref_counts r).*1).

(** Modelled from the spec: the validation of section 4.1 (absent
    [cell_call] package): at least one class, no negative count, and at
    least one gene shared with the spots. *)
Definition schema_ok (p : problem) : bool :=
  negb (bool_decide (ref_classes (ref p) = []))
  && forallb (λ row : string * list Z, forallb (λ c, (0 <=? c)%Z) row.2)
             (ref_counts (ref p))
  && existsb (λ s, has_gene (ref p) (gene s)) (spots p).

(** Modelled from the spec: "genes absent from the reference atlas are
    excluded from inference" (section 3) and "a synthetic generic class is
    appended" (section 4.1); absent [cell_call] package. *)
Definition build_model (p : problem) : model :=
  {| m_cells := cells p;
     m_spots := List.filter (λ s, has_gene (ref p) (gene s)) (spots p);
     m_genes := List.filter (λ g, bool_decide (g ∈ gene <$> spots p))
                            (ref_counts (ref p)).*1;
     m_classes := ref_classes (ref p) ++ ["Zero"%string];
     m_ref := ref p;
     m_hp := hp p |}.

Section Inference.

(** The specification leaves the likelihood terms open ("a function of
    (a)-(d)", section 4.2; the decay law is an open question of section 9).
    They are taken as given, as logarithms; [expQ] stands for the
    exponential applied right before normalisation and is positive. *)
Variable proximity : model → spot → Z → Q.
Variable spot_loglik : model → state → spot → Z → Q.
Variable class_loglik : model → state → cell → nat → Q.
Variable eff_ratio : model → state → string → Q.
Variable expQ : Q → Q.

(** Modelled from the spec: the posterior of one spot from the log-weights
    of its candidates (section 4.2 step 1, absent [cell_call/main.py]): the
    background gets the fixed misread weight and comes last; a spot with no
    candidate cell is background with probability 1 (section 8). *)
Definition spot_posterior (m : model) (lw : Z → Q) (s : spot) : list Q :=
  match candidates s with
  | [] => [1]
  | cs => normalize (((λ c, expQ (lw c)) <$> cs) ++ [misread (m_hp m)])
  end.

(** Modelled from the spec: the unnormalised class weights of one cell
    (section 4.2 step 2, absent [cell_call/main.py]): class prior times
    exponentiated log-likelihood. *)
Definition class_weights (m : model) (lw : nat → Q) : list Q :=
  imap (λ k _, default 0 (class_prior (m_hp m) !! k) * expQ (lw k)) (m_classes m).

(** Modelled from the spec: a cell "with zero prior mass", whose weights
    sum to nothing (section 4.2, failure modes; absent
    [cell_call/main.py]). *)
Definition cell_degenerate (m : model) (lw : nat → Q) : bool :=
  Qle_bool (sumQ (class_weights m lw)) 0.

(** Modelled from the spec: the class posterior of one cell (section 4.2
    step 2, absent [cell_call/main.py]): the normalised class weights, or
    the generic class for a degenerate cell. *)
Definition cell_posterior (m : model) (lw : nat → Q) : list Q :=
  if cell_degenerate m lw
  then one_hot_last (length (m_classes m))
  else normalize (class_weights m lw).

(** Modelled from the spec: initialisation (section 4.2, absent
    [cell_call/main.py]): class posteriors weighted by the class prior,
    spot posteriors proportional to proximity, efficiencies 1. *)
Definition init_state (m : model) : state :=
  {| cell_post := (λ _, cell_posterior m (λ _, 0)) <$> m_cells m;
     spot_post := (λ s, spot_posterior m (proximity m s) s) <$> m_spots m;
     efficiency := (λ _, 1) <$> m_genes m |}.

(** Modelled from the spec: one iteration, steps 1 to 3 of section 4.2
    (absent [cell_call/main.py]). *)
Definition step (m : model) (st : state) : state :=
  let st1 :=
    {| cell_post := cell_post st;
       spot_post := (λ s, spot_posterior m (spot_loglik m st s) s) <$> m_spots m;
       efficiency := efficiency st |} in
  let st2 :=
    {| cell_post := (λ c, cell_posterior m (class_loglik m st1 c)) <$> m_cells m;
       spot_post := spot_post st1;
       efficiency := efficiency st1 |} in
  {| cell_post := cell_post st2;
     spot_post := spot_post st2;
     efficiency :=
       (λ g, Qclamp (eff_min (m_hp m)) (eff_max (m_hp m)) (eff_ratio m st2 g))
         <$> m_genes m |}.

(** Modelled from the spec: the convergence check, "stop if this falls
    below the configured tolerance" (section 4.2 step 4, absent
    [cell_call/main.py]). *)
Definition converged (m : model) (st st' : state) : bool :=
  negb (Qle_bool (tolerance (m_hp m)) (change st st')).

(** Modelled from the spec: the loop of section 4.2 (absent
    [cell_call/main.py]): iterate until the change falls below the
    tolerance or the budget of iterations is spent; the flag tells
    which. *)
Fixpoint iterate (m : model) (budget : nat) (st : state) : state * bool :=
  match budget with
  | O => (st, false)
  | S budget' =>
      let st' := step m st in
      if converged m st st' then (st', true) else iterate m budget' st'
  end.

(** Modelled from the spec: "the most probable candidate is the spot's
    assigned neighbour" (section 4.2, output; absent
    [cell_call/main.py]). *)
Definition assigned_neighbour (s : spot) (post : list Q) : Z :=
  default 0%Z (candidates s !! argmax post).

(** Modelled from the spec: degenerate cells are "assigned the generic
    class with a note" (section 4.2, failure modes; absent
    [cell_call/main.py]). *)
Definition degenerate_notes (m : model) (st : state) : list note :=
  if existsb (λ c, cell_degenerate m (class_loglik m st c)) (m_cells m)
  then [DegenerateInputError] else [].

(** Modelled from the spec: a run of the engine (sections 4.2 and 7, absent
    [cell_call/main.py]): a schema violation is fatal before inference
    starts; an exhausted budget is reported next to the result. *)
Definition run (p : problem) : fatal + outcome :=
  if schema_ok p then
    let m := build_model p in
    let '(st, conv) := iterate m (max_iter (hp p)) (init_state m) in
    inr {| final := st;
           neighbour := zip_with assigned_neighbour (m_spots m) (spot_post st);
           notes := (if conv then [] else [NonConvergenceWarning])
                    ++ degenerate_notes m st |}
  else inl SchemaError.

End Inference.

(** A vector is a probability distribution: no negative entry, total 1. *)
Definition distribution (v : list Q) : Prop :=
  Forall (λ q, 0 <= q) v ∧ sumQ v == 1 ∧ Qabs (sumQ v - 1) <= 1 # 1000000.

Definition normalised (st : state) : Prop :=
  Forall distribution (cell_post st) ∧ Forall distribution (spot_post st).

(** A state with one posterior per cell and per spot of the model. *)
Definition complete (m : model) (st : state) : Prop :=
  length (cell_post st) = length (m_cells m) ∧
  length (spot_post st) = length (m_spots m).

(** Hyperparameters the engine can work with: a misread weight and class
    priors that are not negative. *)
Definition hyper_ok (h : hyper) : Prop :=
  0 <= misread h ∧ Forall (λ q, 0 <= q) (class_prior h).

(** *** A small instance

    Concrete likelihood terms and a concrete problem, used to run the model.
    [exp2] is a positive, increasing stand-in for the exponential. *)

Definition exp2 (q : Q) : Q := 2 ^ Qfloor q.

Module Sample.

Definition proximity (m : model) (s : spot) (c : Z) : Q := - inject_Z c.

Definition spot_loglik (m : model) (st : state) (s : spot) (c : Z) : Q :=
  inject_Z c.

Definition class_loglik (m : model) (st : state) (c : cell) (k : nat) : Q :=
  inject_Z (cell_id c) * inject_Z (Z.of_nat k).

Definition eff_ratio (m : model) (st : state) (g : string) : Q := 1 # 2.

Definition reference : reference :=
  {| ref_classes := ["PC"; "IN"]%string;
     ref_counts := [("Npy", [3; 0]%Z); ("Cck", [1; 2]%Z)]%string |}.

Definition hyper : hyper :=
  {| max_iter := 1; tolerance := 0; misread := 1 # 10;
     class_prior := [1; 1; 2]; eff_min := 1 # 10; eff_max := 10 |}.

Definition cells : list cell :=
  [ {| cell_id := 1; centroid_x := 2; centroid_y := 2; area := 9 |};
    {| cell_id := 2; centroid_x := 7; centroid_y := 2; area := 12 |} ].

(** Two spots of a gene the reference knows and one of a gene, [Vip], it
    does not. *)
Definition problem : problem :=
  {| Engine.cells := cells;
     spots :=
       [ {| gene := "Npy"; spot_x := 3; spot_y := 2; candidates := [1; 2]%Z |};
         {| gene := "Vip"; spot_x := 6; spot_y := 2; candidates := [2; 1]%Z |};
         {| gene := "Npy"; spot_x := 40; spot_y := 40; candidates := [] |} ];
     ref := reference;
     hp := hyper |}.

Definition run : Engine.problem → fatal + outcome :=
  Engine.run proximity spot_loglik class_loglik eff_ratio exp2.

End Sample.

Close Scope Q_scope.

End Engine.

(** * Properties of [init] and [fit] *)

Section InitSpec.

Context {Disk : Type}.
Implicit Types (w : App.world Disk) (opts items : dict).

Import App.

Lemma M_bind_eq {A B} (c : M Disk A) (k : A → M Disk B) w :
  (c ≫= k) w =
    match c w with
    | (Ok a, w') => k a w'
    | (Raise e, w') => (Raise e, w')
    end.
Proof. reflexivity. Qed.

Lemma M_ret_eq {A} (a : A) w : (mret a : M Disk A) w = (Ok a, w).
Proof. reflexivity. Qed.

Ltac msimpl :=
  repeat first
    [ rewrite M_bind_eq
    | rewrite M_ret_eq
    | progress unfold dict_keys, deref, setitem, lift, raise
    | progress cbn ].

Lemma init_items_ok cfg items w :
  forallb (λ item, isinstance_int_float_list item.2) items = true →
  init_items cfg items w =
    (Ok (), {| config_DEFAULT := assigned (config_DEFAULT w) items;
               disk := disk w |}).
Proof.
  revert w. induction items as [|[k v] items IH]; intros w Hall.
  - by destruct w.
  - simpl in Hall. apply andb_true_iff in Hall as [Hv Hall].
    destruct cfg. cbn. rewrite Hv. msimpl. by rewrite IH.
Qed.

Lemma init_items_raise cfg items w :
  forallb (λ item, isinstance_int_float_list item.2) items = false →
  (init_items cfg items w).1 = Raise TypeError.
Proof.
  revert w. induction items as [|[k v] items IH]; intros w Hex; [done|].
  simpl in Hex. destruct cfg. cbn.
  destruct (isinstance_int_float_list v) eqn:Hv; msimpl; [|done].
  by apply IH.
Qed.

Lemma init_items_disk cfg items w :
  disk (init_items cfg items w).2 = disk w.
Proof.
  revert w. induction items as [|[k v] items IH]; intros w; [done|].
  destruct cfg. cbn.
  destruct (isinstance_int_float_list v); msimpl; [|done].
  by rewrite IH.
Qed.

Lemma init_disk o w : disk (init o w).2 = disk w.
Proof.
  destruct o as [opts|]; [|done]. msimpl.
  case_bool_decide; msimpl; [|done].
  pose proof (init_items_disk config_DEFAULT_ref opts w) as Hd.
  destruct (init_items _ _ _) as [[[]|e] w']; cbn in *; done.
Qed.

Lemma init_None w : init None w = (Ok config_DEFAULT_ref, w).
Proof. done. Qed.

(** A successful [init] hands back the module-level dictionary itself,
    after the assignments. *)
Lemma init_Some_ok opts w :
  keys opts ⊆ dom (config_DEFAULT w) →
  forallb (λ item, isinstance_int_float_list item.2) opts = true →
  init (Some opts) w =
    (Ok config_DEFAULT_ref,
     {| config_DEFAULT := assigned (config_DEFAULT w) opts; disk := disk w |}).
Proof.
  intros Hsub Hall. msimpl.
  rewrite bool_decide_eq_true_2 by done. msimpl.
  by rewrite init_items_ok.
Qed.

Lemma assigned_lookup_notin (d : gmap string pyval) items k :
  k ∉ items.*1 → assigned d items !! k = d !! k.
Proof.
  revert d. induction items as [|[k' v'] items IH]; intros d Hk; [done|].
  cbn in *. apply not_elem_of_cons in Hk as [Hne Hk].
  rewrite IH by done. by rewrite lookup_insert_ne.
Qed.

Lemma assigned_lookup (d : gmap string pyval) items k v :
  NoDup items.*1 → (k, v) ∈ items → assigned d items !! k = Some v.
Proof.
  revert d. induction items as [|[k' v'] items IH]; intros d Hnd Hin.
  - by apply elem_of_nil in Hin.
  - cbn in *. apply NoDup_cons in Hnd as [Hk' Hnd].
    apply elem_of_cons in Hin as [Heq|Hin].
    + injection Heq as -> ->.
      rewrite assigned_lookup_notin by done. apply lookup_insert_eq.
    + by apply IH.
Qed.

(** C1, as the code behaves.  [init] assigns into [config.DEFAULT] itself,
    so an option passed to one call is the default seen by the next: after
    [init({k: n})] on defaults holding [k: n0], the configuration returned by
    [init(None)] holds [k: n], whatever [n0] was. *)
Theorem init_override_persists (d0 : gmap string pyval) (k : string) (n0 n : Z)
    (dsk : Disk) :
  let w0 := {| config_DEFAULT := <[k := PyInt n0]> d0; disk := dsk |} in
  let w1 := (init (Some [(k, PyInt n)]) w0).2 in
  ∃ cfg w2 d,
    init None w1 = (Ok cfg, w2) ∧
    deref cfg w2 = (Ok d, w2) ∧
    d !! k = Some (PyInt n).
Proof.
  intros w0 w1.
  assert (Hw1 : w1 = {| config_DEFAULT := <[k := PyInt n]> (<[k := PyInt n0]> d0);
                        disk := dsk |}).
  { unfold w1, w0. rewrite init_Some_ok; [done| |done].
    cbn. unfold keys. cbn. rewrite dom_insert.
    rewrite (right_id_L ∅ (∪)). apply union_subseteq_l. }
  exists config_DEFAULT_ref, w1, (config_DEFAULT w1). split_and!; [done..|].
  rewrite Hw1. cbn. apply lookup_insert_eq.
Qed.

(** C10.  For a dictionary [opts] (distinct keys): a key outside the default
    configuration makes [init] raise [AssertionError]; otherwise an entry
    whose value is not an int, a float or a list makes it raise
    [TypeError]; otherwise (every key known, every value an int, a float or
    a list) [init] returns, and the configuration it returns maps every key
    of [opts] to the value supplied for it.  So whenever [init] returns, the
    returned configuration holds the supplied values. *)
Theorem init_opts_checked opts w :
  NoDup opts.*1 →
  (¬ keys opts ⊆ dom (config_DEFAULT w) →
   (init (Some opts) w).1 = Raise AssertionError) ∧
  (keys opts ⊆ dom (config_DEFAULT w) →
   (∃ item, item ∈ opts ∧ isinstance_int_float_list item.2 = false) →
   (init (Some opts) w).1 = Raise TypeError) ∧
  (keys opts ⊆ dom (config_DEFAULT w) →
   (∀ item, item ∈ opts → isinstance_int_float_list item.2 = true) →
   ∃ cfg w' d,
     init (Some opts) w = (Ok cfg, w') ∧
     deref cfg w' = (Ok d, w') ∧
     ∀ k v, (k, v) ∈ opts → d !! k = Some v) ∧
  (∀ cfg w', init (Some opts) w = (Ok cfg, w') →
   ∃ d, deref cfg w' = (Ok d, w') ∧ ∀ k v, (k, v) ∈ opts → d !! k = Some v).
Proof.
  intros Hnd. split_and!.
  - intros Hsub. msimpl. by rewrite bool_decide_eq_false_2.
  - intros Hsub (item & Hin & Hty). msimpl.
    rewrite bool_decide_eq_true_2 by done. msimpl.
    assert (Hall : forallb (λ item, isinstance_int_float_list item.2) opts = false).
    { apply not_true_iff_false. intros Hall.
      rewrite forallb_forall in Hall.
      apply list_elem_of_In, Hall in Hin. congruence. }
    pose proof (init_items_raise config_DEFAULT_ref opts w Hall) as Hr.
    destruct (init_items _ _ _) as [[[]|e] w']; cbn in *; congruence.
  - intros Hsub Hvalid.
    assert (Hall : forallb (λ item, isinstance_int_float_list item.2) opts = true).
    { apply forallb_forall. intros item Hin. by apply Hvalid, list_elem_of_In. }
    eexists _, _, _. split; [by apply init_Some_ok|]. split; [done|].
    intros k v Hin. cbn. by apply assigned_lookup.
  - intros cfg w' Hinit.
    destruct (decide (keys opts ⊆ dom (config_DEFAULT w))) as [Hsub|Hsub]; last first.
    { revert Hinit. msimpl. by rewrite bool_decide_eq_false_2. }
    destruct (forallb (λ item, isinstance_int_float_list item.2) opts) eqn:Hall.
    + rewrite init_Some_ok in Hinit by done. injection Hinit as <- <-.
      eexists. split; [done|]. intros k v Hin. cbn.
      by apply assigned_lookup.
    + pose proof (init_items_raise config_DEFAULT_ref opts w Hall) as Hr.
      revert Hinit. msimpl. rewrite bool_decide_eq_true_2 by done. msimpl.
      destruct (init_items _ _ _) as [[[]|e] w'']; cbn in *; congruence.
Qed.

End InitSpec.

(** [init_opts_checked] at [opts = {'max_iter': 10}] on defaults that hold
    [max_iter: 1000]: the call returns, and the configuration it returns
    holds [max_iter: 10]. *)
Lemma init_opts_checked_witness :
  let w : App.world () :=
    {| App.config_DEFAULT := {[ "max_iter" := PyInt 1000 ]}; App.disk := () |} in
  let opts : dict := [("max_iter", PyInt 10)] in
  NoDup opts.*1 ∧
  keys opts ⊆ dom (App.config_DEFAULT w) ∧
  (∀ item, item ∈ opts → isinstance_int_float_list item.2 = true) ∧
  ∃ cfg w' d,
    App.init (Some opts) w = (Ok cfg, w') ∧
    App.deref cfg w' = (Ok d, w') ∧
    d !! "max_iter" = Some (PyInt 10).
Proof.
  intros w opts.
  assert (Hnd : NoDup opts.*1) by (apply NoDup_singleton).
  assert (Hsub : keys opts ⊆ dom (App.config_DEFAULT w)).
  { refine (bool_decide_unpack _ _). by vm_compute. }
  assert (Hvalid : ∀ item, item ∈ opts → isinstance_int_float_list item.2 = true).
  { intros item ->%list_elem_of_singleton. reflexivity. }
  split_and!; [exact Hnd|exact Hsub|exact Hvalid|].
  destruct (proj1 (proj2 (proj2 (init_opts_checked opts w Hnd))) Hsub Hvalid)
    as (cfg & w' & d & Hinit & Hderef & Hd).
  exists cfg, w', d. split_and!; [exact Hinit|exact Hderef|].
  apply Hd. by apply list_elem_of_singleton.
Defined.

Section FitSpec.

Import SpotLabels App.

Context {C P ScRNAseq CellData GeneData Disk : Type}.
Variable regionprops : ndarray → result (list (region C)).
Variable extract_borders_dip : ndarray → Z → Z → list Z → result (list (Z * P)).
Variable VarBayes_run :
  list (cell_row C) → list (spot_row C) → ScRNAseq → gmap string pyval →
  result (CellData * GeneData).
Variable temp_dir : string.
Variable os_path_join : string → string → string.
Variable os_path_exists : string → Disk → bool.
Variable os_makedirs : string → Disk → result () * Disk.
Variable to_csv : frame CellData GeneData P → string → Disk → result () * Disk.
Variable splitter_mb :
  frame CellData GeneData P → string → Z → Disk → result () * Disk.
Variable content : string → Disk → result () * Disk.

#[local] Abbreviation stage_data' := (stage_data regionprops extract_borders_dip).
#[local] Abbreviation cell_type' := (cell_type VarBayes_run).
#[local] Abbreviation write_to_disk' :=
  (write_to_disk temp_dir os_path_join os_path_exists os_makedirs to_csv
                 splitter_mb content).
#[local] Abbreviation fit' :=
  (fit regionprops extract_borders_dip VarBayes_run temp_dir os_path_join
       os_path_exists os_makedirs to_csv splitter_mb content).

Implicit Types (w : world Disk) (opts : option dict).

Lemma cell_type_world cells spots sc cfg w :
  (cell_type' cells spots sc cfg w).2 = w.
Proof. by destruct cfg. Qed.

(** [fit] as a cascade over the results of its three stages. *)
Lemma fit_unfold iss_spots coo sc opts w :
  fit' iss_spots coo sc opts w =
    match init opts w with
    | (Raise e, w0) => (Raise e, w0)
    | (Ok cfg, w0) =>
        match stage_data' iss_spots coo with
        | Raise e => (Raise e, w0)
        | Ok (cells, bnd, spots) =>
            match cell_type' cells spots sc cfg w0 with
            | (Raise e, w1) => (Raise e, w1)
            | (Ok (cellData, geneData), w1) =>
                (write_to_disk' cellData geneData bnd
                   ≫= λ _, mret (cellData, geneData)) w1
            end
        end
    end.
Proof.
  unfold fit. rewrite M_bind_eq.
  destruct (init opts w) as [[cfg|e] w0]; [|done].
  rewrite M_bind_eq. unfold lift at 1.
  destruct (stage_data' iss_spots coo) as [[[cells bnd] spots]|e]; [|done].
  rewrite M_bind_eq.
  destruct (cell_type' cells spots sc cfg w0) as [[[cellData geneData]|e] w1]; done.
Qed.

(** The three outcomes of [fit]: [init] raises; [init] returns and
    [stage_data] or [cell_type] raises; or all three return and the rest of
    [fit] is [write_to_disk] on their results.  In the first two the disk is
    the one [fit] started with. *)
Lemma fit_cases iss_spots coo sc opts w :
  (∃ e, (init opts w).1 = Raise e ∧ fit' iss_spots coo sc opts w = (Raise e, (init opts w).2))
  ∨ (∃ cfg e,
       (init opts w).1 = Ok cfg ∧
       (stage_data' iss_spots coo = Raise e
        ∨ ∃ cells bnd spots,
            stage_data' iss_spots coo = Ok (cells, bnd, spots) ∧
            (cell_type' cells spots sc cfg (init opts w).2).1 = Raise e) ∧
       fit' iss_spots coo sc opts w = (Raise e, (init opts w).2))
  ∨ (∃ cfg cells bnd spots cellData geneData,
       (init opts w).1 = Ok cfg ∧
       stage_data' iss_spots coo = Ok (cells, bnd, spots) ∧
       (cell_type' cells spots sc cfg (init opts w).2).1 = Ok (cellData, geneData) ∧
       fit' iss_spots coo sc opts w =
         (write_to_disk' cellData geneData bnd ≫= λ _, mret (cellData, geneData))
           (init opts w).2).
Proof.
  rewrite fit_unfold.
  destruct (init opts w) as [[cfg|e] w0] eqn:Hinit; cbn [fst snd].
  2: { left. by exists e. }
  right.
  destruct (stage_data' iss_spots coo) as [[[cells bnd] spots]|e] eqn:Hstage.
  2: { left. exists cfg, e. split_and!; [done|by left|done]. }
  pose proof (cell_type_world cells spots sc cfg w0) as Hw.
  destruct (cell_type' cells spots sc cfg w0) as [[[cellData geneData]|e] w1] eqn:Hct;
    cbn in Hw; subst w1.
  - right. exists cfg, cells, bnd, spots, cellData, geneData.
    split_and!; [done|done|by rewrite Hct|done].
  - left. exists cfg, e. split_and!; [done| |done].
    right. exists cells, bnd, spots. by rewrite Hct.
Qed.

(** C4.  When [stage_data] raises, or [stage_data] returns and [cell_type]
    raises on its results, [fit] raises that exception and the disk is the
    one it started with: no output file has been written. *)
Theorem fit_error_no_output iss_spots coo sc opts w cfg e :
  (init opts w).1 = Ok cfg →
  (stage_data' iss_spots coo = Raise e
   ∨ ∃ cells bnd spots,
       stage_data' iss_spots coo = Ok (cells, bnd, spots) ∧
       (cell_type' cells spots sc cfg (init opts w).2).1 = Raise e) →
  (fit' iss_spots coo sc opts w).1 = Raise e ∧
  disk (fit' iss_spots coo sc opts w).2 = disk w.
Proof.
  intros Hinit Hfail.
  destruct (fit_cases iss_spots coo sc opts w)
    as [(e' & He' & _)|[(cfg' & e' & Hcfg & Hor & Hfit)|
                        (cfg' & cells & bnd & spots & cd & gd & Hcfg & Hst & Hct & _)]].
  - congruence.
  - rewrite Hfit. cbn. rewrite init_disk. split; [|done].
    assert (cfg' = cfg) as -> by congruence.
    destruct Hfail as [Hs|(c1 & b1 & s1 & Hs & Hc)];
      destruct Hor as [Hs'|(c2 & b2 & s2 & Hs' & Hc')]; congruence.
  - assert (cfg' = cfg) as -> by congruence.
    destruct Hfail as [Hs|(c1 & b1 & s1 & Hs & Hc)]; congruence.
Qed.

End FitSpec.

(** [fit_error_no_output] on the sample pipeline with a label image that
    has no stored label: [stage_data] raises [ValueError], and so does
    [fit], with nothing written. *)
Lemma fit_error_no_output_witness :
  let w := SampleData.world0 in
  let r := SampleData.fit SampleData.spots SampleData.coo_empty () None w in
  (App.init None w).1 = Ok App.config_DEFAULT_ref ∧
  SpotLabels.stage_data SampleData.regionprops SampleData.extract_borders_dip
    SampleData.spots SampleData.coo_empty = Raise ValueError ∧
  r.1 = Raise ValueError ∧
  App.disk r.2 = App.disk w.
Proof.
  intros w r.
  split; [reflexivity|]. split; [reflexivity|].
  exact (fit_error_no_output
           SampleData.regionprops SampleData.extract_borders_dip
           SampleData.VarBayes_run "/tmp" (λ a b, a +:+ "/" +:+ b)
           (λ path d, bool_decide (path ∈ d))
           SampleData.write (λ _ path, SampleData.write path)
           (λ _ path _, SampleData.write path) SampleData.write
           SampleData.spots SampleData.coo_empty () None w
           App.config_DEFAULT_ref ValueError eq_refl (or_introl eq_refl)).
Defined.

(** * Properties of [stage_data] *)

Section ArrayFacts.

Import SpotLabels.

Lemma result_bind_Ok {A B} (r : result A) (k : A → result B) b :
  r ≫= k = Ok b → ∃ a, r = Ok a ∧ k a = Ok b.
Proof. destruct r as [a|e]; [eauto|done]. Qed.

Lemma mapM_Ok_Forall2 {A B} (f : A → result B) l l' :
  mapM f l = Ok l' → Forall2 (λ a b, f a = Ok b) l l'.
Proof.
  revert l'. induction l as [|a l IH]; intros l' H; cbn in H.
  - injection H as <-. constructor.
  - destruct (f a) as [b|e] eqn:Hfa; cbn in H; [|done].
    destruct (mapM f l) as [bs|e]; cbn in H; [|done].
    injection H as <-. constructor; auto.
Qed.

Lemma mapM_Forall_Ok {A B} (f : A → result B) (g : A → B) l :
  Forall (λ a, f a = Ok (g a)) l → mapM f l = Ok (g <$> l).
Proof.
  induction 1 as [|a l Ha _ IH]; cbn; [done|]. by rewrite Ha, IH.
Qed.

Lemma mapM_Raise {A B} (f : A → result B) l a e :
  a ∈ l → f a = Raise e → (∀ a' e', f a' = Raise e' → e' = e) →
  mapM f l = Raise e.
Proof.
  intros Hin Hfa Huniq. induction l as [|a0 l IH]; [by apply elem_of_nil in Hin|].
  cbn. destruct (f a0) as [b|e0] eqn:Hfa0; cbn.
  - apply elem_of_cons in Hin as [->|Hin]; [congruence|].
    by rewrite IH.
  - f_equal. eauto.
Qed.

(** Row-major layout: element (i, j) of an R-by-Cn table sits at i*Cn + j. *)
Lemma lookup_row_major {A} (f : nat → nat → A) (s R Cn i j : nat) :
  (i < R)%nat → (j < Cn)%nat →
  (seq s R ≫= λ i, f i <$> seq 0 Cn) !! (i * Cn + j)%nat = Some (f (s + i)%nat j).
Proof.
  revert s i. induction R as [|R IH]; intros s i Hi Hj; [lia|].
  cbn [seq]. rewrite bind_cons. destruct i as [|i].
  - rewrite lookup_app_l by (rewrite length_fmap, length_seq; lia).
    rewrite list_lookup_fmap, lookup_seq_lt by lia. cbn. do 2 f_equal. lia.
  - rewrite lookup_app_r by (rewrite length_fmap, length_seq; lia).
    rewrite length_fmap, length_seq.
    replace (S i * Cn + j - Cn)%nat with (i * Cn + j)%nat by lia.
    rewrite IH by lia. do 2 f_equal. lia.
Qed.

Lemma length_row_major {A} (f : nat → nat → A) (s R Cn : nat) :
  length (seq s R ≫= λ i, f i <$> seq 0 Cn) = (R * Cn)%nat.
Proof.
  revert s. induction R as [|R IH]; intros s; [done|].
  cbn [seq]. rewrite bind_cons, length_app, length_fmap, length_seq, IH. lia.
Qed.

Lemma nd_get_toarray coo i j :
  (i < (shape coo).1)%nat → (j < (shape coo).2)%nat →
  nd_get (toarray coo) i j = Some (coo_at coo i j).
Proof.
  intros Hi Hj. unfold nd_get. cbn. rewrite decide_True by done.
  by rewrite lookup_row_major.
Qed.

Lemma filter_fmap {A B} (g : A → B) (p : B → bool) l :
  List.filter p (g <$> l) = g <$> List.filter (λ a, p (g a)) l.
Proof.
  induction l as [|a l IH]; [done|]. cbn. destruct (p (g a)); cbn; by rewrite IH.
Qed.

Lemma filter_filter {A} (p q : A → bool) l :
  List.filter p (List.filter q l) = List.filter (λ a, q a && p a) l.
Proof.
  induction l as [|a l IH]; [done|]. cbn.
  destruct (q a); cbn; [destruct (p a)|]; by rewrite IH.
Qed.

(** [tocsr] and [toarray] agree on every element. *)
Lemma csr_at_tocsr coo i j :
  (i < (shape coo).1)%nat → csr_at (tocsr coo) i j = coo_at coo i j.
Proof.
  intros Hi. unfold csr_at, coo_at, tocsr. cbn.
  rewrite list_lookup_fmap, lookup_seq_lt by done. cbn.
  rewrite filter_fmap, filter_filter. cbn.
  rewrite <- list_fmap_compose. done.
Qed.

End ArrayFacts.

Section InsideCell.

Import SpotLabels.

Lemma check_index_Ok n i k :
  0 ≤ i → check_index n i = Ok k → i = Z.of_nat k ∧ (k < n)%nat.
Proof.
  unfold check_index. intros Hi.
  destruct (_ && _) eqn:Hb; [|done].
  apply andb_true_iff in Hb as [_ Hlt]. apply Z.ltb_lt in Hlt.
  destruct (i <? 0) eqn:Hneg; [apply Z.ltb_lt in Hneg; lia|].
  intros [= <-]. lia.
Qed.

Lemma check_index_in_range n i :
  0 ≤ i < Z.of_nat n → check_index n i = Ok (Z.to_nat i).
Proof.
  intros [Hi Hn]. unfold check_index.
  rewrite (proj2 (Z.leb_le _ _)) by lia. rewrite (proj2 (Z.ltb_lt _ _)) by lia.
  cbn. by rewrite (proj2 (Z.ltb_ge _ _)) by lia.
Qed.

Lemma check_index_edge n : check_index n (Z.of_nat n) = Raise IndexError.
Proof.
  unfold check_index. rewrite (proj2 (Z.ltb_ge _ _)) by lia.
  by rewrite andb_false_r.
Qed.

Lemma check_index_Raise n i e : check_index n i = Raise e → e = IndexError.
Proof. unfold check_index. destruct (_ && _); congruence. Qed.

Lemma mask_true coo s :
  mask coo s = true ↔
  (0 ≤ x s ≤ Z.of_nat (shape coo).2) ∧ (0 ≤ y s ≤ Z.of_nat (shape coo).1).
Proof.
  unfold mask. rewrite !andb_true_iff, !Z.leb_le. tauto.
Qed.

(** [inside_cell] on a [csr_matrix]: the lookup of line 25, then [out[0]]
    of line 27, which needs at least one spot. *)
Lemma inside_cell_csr m spots :
  inside_cell (ImgCsr m) spots =
    match csr_getitem m ((λ s, (y s, x s)) <$> spots) with
    | Ok [] => Raise IndexError
    | Ok (l :: inc) => Ok (l :: inc)
    | Raise e => Raise e
    end.
Proof.
  unfold inside_cell. cbn [mbind result_bind rbind].
  by destruct (csr_getitem _ _) as [[|l inc]|e].
Qed.

(** A lookup that returns went through line 25 without an exception, and
    the spot table was not empty. *)
Lemma inside_cell_Ok_inv m spots inc :
  inside_cell (ImgCsr m) spots = Ok inc →
  csr_getitem m ((λ s, (y s, x s)) <$> spots) = Ok inc ∧ spots ≠ [].
Proof.
  rewrite inside_cell_csr.
  destruct (csr_getitem _ _) as [[|l inc']|e] eqn:Hget; [done| |done].
  intros [= <-]. split; [done|]. intros ->. by cbn in Hget.
Qed.

(** It returns one label for each spot. *)
Lemma inside_cell_length m spots inc :
  inside_cell (ImgCsr m) spots = Ok inc → length inc = length spots.
Proof.
  intros [Hget _]%inside_cell_Ok_inv. unfold csr_getitem in Hget.
  apply mapM_Ok_Forall2, Forall2_length in Hget.
  by rewrite length_fmap in Hget.
Qed.

(** On spots with non-negative coordinates, a lookup that succeeds returns
    the pixel of the dense label image at (row y, column x). *)
Lemma inside_cell_pixels coo spots inc :
  Forall (λ s, 0 ≤ x s ∧ 0 ≤ y s) spots →
  inside_cell (ImgCsr (tocsr coo)) spots = Ok inc →
  Forall2 (λ s l, nd_get (toarray coo) (Z.to_nat (y s)) (Z.to_nat (x s)) = Some l)
          spots inc.
Proof.
  intros Hpos [Hin _]%inside_cell_Ok_inv. unfold csr_getitem in Hin.
  apply mapM_Ok_Forall2 in Hin. apply Forall2_fmap_l in Hin.
  revert Hpos. induction Hin as [|s l spots inc Hs _ IH]; intros Hpos; [constructor|].
  apply Forall_cons in Hpos as [[Hx Hy] Hpos]. constructor; [|by apply IH].
  cbn in Hs.
  destruct (check_index _ (y s)) as [i|] eqn:Hi; cbn in Hs; [|done].
  destruct (check_index _ (x s)) as [j|] eqn:Hj; cbn in Hs; [|done].
  apply check_index_Ok in Hi as [Hyi Hi]; [|done].
  apply check_index_Ok in Hj as [Hxj Hj]; [|done].
  injection Hs as <-. rewrite Hyi, Hxj, !Nat2Z.id.
  rewrite nd_get_toarray by done. by rewrite csr_at_tocsr.
Qed.

(** X9.  Spots strictly inside the image are all looked up successfully:
    [inside_cell] returns, spot by spot, the pixel of the label image at
    (row y, column x).  An empty spot table is the exception: there line 27
    ([out[0]]) raises [IndexError]. *)
Lemma inside_cell_in_range coo spots :
  Forall (λ s, 0 ≤ x s < Z.of_nat (shape coo).2 ∧
               0 ≤ y s < Z.of_nat (shape coo).1) spots →
  inside_cell (ImgCsr (tocsr coo)) spots =
    match spots with
    | [] => Raise IndexError
    | _ :: _ => Ok ((λ s, coo_at coo (Z.to_nat (y s)) (Z.to_nat (x s))) <$> spots)
    end.
Proof.
  intros Hall. rewrite inside_cell_csr. unfold csr_getitem.
  rewrite (mapM_Forall_Ok _ (λ p : Z * Z, coo_at coo (Z.to_nat p.1) (Z.to_nat p.2))).
  - rewrite <- list_fmap_compose. by destruct spots.
  - apply Forall_fmap. eapply Forall_impl; [exact Hall|].
    intros s [Hx Hy]. cbn.
    rewrite !check_index_in_range by done. cbn.
    rewrite csr_at_tocsr by lia. done.
Qed.

(** A spot on the right or bottom edge (x = width or y = height) makes the
    lookup raise [IndexError]. *)
Lemma inside_cell_edge coo spots s :
  s ∈ spots →
  x s = Z.of_nat (shape coo).2 ∨ y s = Z.of_nat (shape coo).1 →
  inside_cell (ImgCsr (tocsr coo)) spots = Raise IndexError.
Proof.
  intros Hin Hedge. rewrite inside_cell_csr.
  replace (csr_getitem _ _) with (@Raise (list Z) IndexError); [done|].
  symmetry. unfold csr_getitem.
  eapply (mapM_Raise _ _ (y s, x s)).
  - apply list_elem_of_fmap. by exists s.
  - cbn. destruct Hedge as [-> | ->].
    + destruct (check_index _ (y s)) eqn:Hy; cbn.
      * by rewrite check_index_edge.
      * f_equal. by apply check_index_Raise in Hy.
    + by rewrite check_index_edge.
  - intros [i j] e'. cbn.
    destruct (check_index _ i) eqn:Hi; cbn.
    + destruct (check_index _ j) eqn:Hj; cbn; [done|].
      intros [= <-]. by apply check_index_Raise in Hj.
    + intros [= <-]. by apply check_index_Raise in Hi.
Qed.

End InsideCell.

Section StageDataSpec.

Import SpotLabels.

Context {C P : Type}.
Variable regionprops : ndarray → result (list (region C)).
Variable extract_borders_dip : ndarray → Z → Z → list Z → result (list (Z * P)).

#[local] Abbreviation stage_data' := (stage_data regionprops extract_borders_dip).

(** A returned [stage_data] went through the relabelling step, the
    coordinate filter and the lookup, and its spot table is the left join
    of the labelled spots with some cell table. *)
Lemma stage_data_Ok_inv spots coo cells bnd out :
  stage_data' spots coo = Ok (cells, bnd, out) →
  ∃ coo' inc (cs : list (Z * Z * C * C * P)),
    relabel_if_needed coo = Ok coo' ∧
    inside_cell (ImgCsr (tocsr coo')) (List.filter (mask coo') spots) = Ok inc ∧
    out = merge_spots (zip (List.filter (mask coo') spots) inc) cs.
Proof.
  unfold stage_data. intros H.
  apply result_bind_Ok in H as (coo' & Hre & H).
  apply result_bind_Ok in H as (inc & Hinc & H).
  apply result_bind_Ok in H as (props & _ & H).
  apply result_bind_Ok in H as (cb & _ & H).
  do 3 apply result_bind_Ok in H as ([] & _ & H).
  injection H as _ _ <-. eauto 10.
Qed.

Lemma elem_of_merge_spots (sp : list (spot * Z)) (cs : list (Z * Z * C * C * P)) r :
  r ∈ merge_spots sp cs →
  ∃ s l, (s, l) ∈ sp ∧
    x_global r = x s ∧ y_global r = y s ∧ label r = l ∧ target r = Gene s.
Proof.
  unfold merge_spots. intros Hr.
  apply list_elem_of_bind in Hr as ([s l] & Hr & Hsl).
  exists s, l. split; [done|]. cbn in Hr.
  destruct (List.filter _ cs) as [|c cs'].
  - apply list_elem_of_singleton in Hr as ->. done.
  - apply elem_of_cons in Hr as [->|Hr]; [done|].
    apply list_elem_of_fmap in Hr as (c' & -> & _). done.
Qed.

Lemma merge_spots_covers (sp : list (spot * Z)) (cs : list (Z * Z * C * C * P)) s l :
  (s, l) ∈ sp →
  ∃ r, r ∈ merge_spots sp cs ∧
    x_global r = x s ∧ y_global r = y s ∧ label r = l ∧ target r = Gene s.
Proof.
  intros Hsl. unfold merge_spots.
  destruct (List.filter (λ c : Z * Z * C * C * P, bool_decide (c.1.1.1.1 = l)) cs)
    as [|c cs'] eqn:Hf.
  - eexists. split; [apply list_elem_of_bind; exists (s, l); split; [|done]|].
    + cbn. rewrite Hf. apply list_elem_of_singleton. reflexivity.
    + done.
  - eexists. split; [apply list_elem_of_bind; exists (s, l); split; [|done]|].
    + cbn. rewrite Hf. apply elem_of_cons. left. reflexivity.
    + done.
Qed.

(** X12.  A spot on the right or bottom edge of the image passes the filter and
    makes [stage_data] raise [IndexError]. *)
Lemma stage_data_edge_raises spots coo coo' s :
  relabel_if_needed coo = Ok coo' →
  s ∈ spots →
  mask coo' s = true →
  x s = Z.of_nat (shape coo').2 ∨ y s = Z.of_nat (shape coo').1 →
  stage_data' spots coo = Raise IndexError.
Proof.
  intros Hre Hs Hm Hedge. unfold stage_data. rewrite Hre. cbn [mbind result_bind rbind].
  rewrite (inside_cell_edge coo' _ s); [done| |done].
  apply list_elem_of_In, filter_In. split; [by apply list_elem_of_In|done].
Qed.

(** When [stage_data] returns, every row of its spot table carries the
    value of the label image it worked on (the input image, relabelled when
    the check of line 60 asks for it) at row [y], column [x] of the spot,
    and every spot that passes the coordinate filter has such a row.  The
    image meant is the one lines 60-62 produce, not the segmentation passed
    in. *)
Lemma stage_data_labels_of_relabelled_image spots coo cells bnd out :
  stage_data' spots coo = Ok (cells, bnd, out) →
  ∃ coo',
    relabel_if_needed coo = Ok coo' ∧
    (∀ r, r ∈ out →
       0 ≤ x_global r ∧ 0 ≤ y_global r ∧
       nd_get (toarray coo') (Z.to_nat (y_global r)) (Z.to_nat (x_global r))
         = Some (label r)) ∧
    (∀ s, s ∈ spots → mask coo' s = true →
       ∃ r, r ∈ out ∧ x_global r = x s ∧ y_global r = y s ∧ target r = Gene s).
Proof.
  intros H. apply stage_data_Ok_inv in H as (coo' & inc & cs & Hre & Hinc & ->).
  exists coo'. split; [done|].
  set (kept := List.filter (mask coo') spots) in *.
  assert (Hpos : Forall (λ s, 0 ≤ x s ∧ 0 ≤ y s) kept).
  { apply Forall_forall. intros s Hs. apply list_elem_of_In, filter_In in Hs as [_ Hm].
    apply mask_true in Hm. lia. }
  pose proof (inside_cell_pixels coo' kept inc Hpos Hinc) as Hpix.
  split.
  - intros r Hr. apply elem_of_merge_spots in Hr as (s & l & Hsl & Hx & Hy & Hl & _).
    apply list_elem_of_lookup in Hsl as [n Hn].
    apply lookup_zip_with_Some in Hn as (s' & l' & [= <- <-] & Hs & Hlk).
    pose proof (Forall2_lookup_lr _ _ _ _ _ _ Hpix Hs Hlk) as Hget.
    rewrite Forall_forall in Hpos.
    assert (Hs_in : s ∈ kept) by (apply list_elem_of_lookup; eauto).
    destruct (Hpos s Hs_in) as [Hxs Hys].
    rewrite Hx, Hy, Hl. by split_and!.
  - intros s Hs Hm.
    assert (Hk : s ∈ kept) by (apply list_elem_of_In, filter_In; split; [by apply list_elem_of_In|done]).
    apply list_elem_of_lookup in Hk as [n Hn].
    destruct (Forall2_lookup_l _ _ _ _ _ Hpix Hn) as (l & Hl & _).
    assert (Hz : (s, l) ∈ zip kept inc).
    { apply list_elem_of_lookup. exists n. apply lookup_zip_with_Some. eauto. }
    destruct (merge_spots_covers _ cs _ _ Hz) as (r & Hr & ? & ? & ? & ?).
    eauto 10.
Qed.

End StageDataSpec.

(** C9, as the code behaves.  The coordinate filter keeps a spot with
    [x] equal to the image width; on a 2-by-2 image with one labelled pixel,
    a single spot at [x = 2], [y = 0] passes the filter, the lookup at
    column 2 is outside the array, and [stage_data] raises [IndexError]. *)
Theorem stage_data_edge_spot_raises {C P : Type}
    (regionprops : SpotLabels.ndarray → result (list (SpotLabels.region C)))
    (extract_borders_dip :
       SpotLabels.ndarray → Z → Z → list Z → result (list (Z * P))) :
  let coo := {| SpotLabels.shape := (2%nat, 2%nat);
                SpotLabels.entries := [(0%nat, 0%nat, 1)] |} in
  let s := {| SpotLabels.Gene := "Npy"; SpotLabels.x := 2; SpotLabels.y := 0 |} in
  SpotLabels.mask coo s = true ∧
  SpotLabels.stage_data regionprops extract_borders_dip [s] coo = Raise IndexError.
Proof. split; reflexivity. Qed.

(** C3, as the code behaves.  The label attached to a spot is read off the
    image that lines 60-62 produce, and on a segmentation without a
    background pixel [reorder_labels] turns the cell with the smallest label
    into background.  On the 1-by-2 segmentation
    [[2, 3]] the spot at [x = 0], [y = 0] lies in cell 2, the image
    [stage_data] works on is [[0, 1]], and the row returned for the spot
    carries label 0 and no cell coordinates. *)
Theorem stage_data_spot_in_cell_labelled_background :
  let coo := SampleData.coo_no_background in
  let s := {| SpotLabels.Gene := "Npy"; SpotLabels.x := 0; SpotLabels.y := 0 |} in
  SpotLabels.cell_contains (SpotLabels.toarray coo) 2 0 0 ∧
  (∃ coo', SpotLabels.relabel_if_needed coo = Ok coo' ∧
           SpotLabels.toarray coo' =
             {| SpotLabels.nd_shape := (1%nat, 2%nat);
                SpotLabels.nd_flat := [0; 1] |}) ∧
  SpotLabels.stage_data SampleData.regionprops_of_image
      SampleData.extract_borders_of_image [s] coo =
    Ok ([ {| SpotLabels.c_label := 1; SpotLabels.c_area := 1;
             SpotLabels.c_x := (); SpotLabels.c_y := () |} ],
        [ {| SpotLabels.cell_id := 1; SpotLabels.coords := () |} ],
        [ {| SpotLabels.x_global := 0; SpotLabels.y_global := 0;
             SpotLabels.label := 0; SpotLabels.target := "Npy";
             SpotLabels.x_cell := None; SpotLabels.y_cell := None |} ]).
Proof.
  split_and!.
  - by vm_compute.
  - eexists. split; by vm_compute.
  - by vm_compute.
Qed.

(** * Relabelling *)

Section Unique.

Import SpotLabels.

Lemma elem_of_np_unique l v : v ∈ np_unique l ↔ v ∈ l.
Proof.
  unfold np_unique. rewrite merge_sort_Permutation. apply elem_of_remove_dups.
Qed.

Lemma NoDup_np_unique l : NoDup (np_unique l).
Proof.
  unfold np_unique. rewrite merge_sort_Permutation. apply NoDup_remove_dups.
Qed.

Lemma length_np_unique l : length (np_unique l) = len_set l.
Proof. unfold np_unique, len_set. by rewrite merge_sort_Permutation. Qed.

Lemma sorted_np_unique l : StronglySorted Z.le (np_unique l).
Proof. unfold np_unique. apply StronglySorted_merge_sort; apply _. Qed.

Lemma len_set_size l : len_set l = size (list_to_set l : gset Z).
Proof.
  unfold len_set. rewrite <- (size_list_to_set (C:=gset Z)) by apply NoDup_remove_dups.
  f_equal. apply set_eq. intros v.
  by rewrite !elem_of_list_to_set, elem_of_remove_dups.
Qed.

Lemma index_of_lt v u : v ∈ u → (index_of v u < length u)%nat.
Proof.
  induction u as [|w u IH]; intros Hv; [by apply elem_of_nil in Hv|].
  cbn. case_decide; [lia|].
  apply elem_of_cons in Hv as [?|Hv]; [done|]. apply IH in Hv. lia.
Qed.

Lemma lookup_index_of v u : v ∈ u → u !! index_of v u = Some v.
Proof.
  induction u as [|w u IH]; intros Hv; [by apply elem_of_nil in Hv|].
  cbn. case_decide as Hvw; [by subst|].
  apply elem_of_cons in Hv as [?|Hv]; [done|]. by apply IH.
Qed.

Lemma index_of_inj v w u :
  v ∈ u → w ∈ u → index_of v u = index_of w u → v = w.
Proof.
  intros Hv Hw Heq. apply lookup_index_of in Hv, Hw.
  rewrite Heq in Hv. congruence.
Qed.

Lemma index_of_lookup u k v : NoDup u → u !! k = Some v → index_of v u = k.
Proof.
  intros Hnd Hk.
  assert (Hv : v ∈ u) by (apply list_elem_of_lookup; eauto).
  apply lookup_index_of in Hv.
  by eapply NoDup_lookup.
Qed.

(** In a sorted list of non-negative numbers that contains 0, 0 comes
    first. *)
Lemma sorted_head_0 u :
  StronglySorted Z.le u → Forall (λ v, 0 ≤ v) u → 0 ∈ u → u !! 0%nat = Some 0.
Proof.
  intros Hs Hnn H0. destruct u as [|a u]; [by apply elem_of_nil in H0|].
  cbn. f_equal. apply StronglySorted_inv in Hs as [_ Hle].
  apply Forall_cons in Hnn as [Ha _].
  apply elem_of_cons in H0 as [->|H0]; [done|].
  rewrite Forall_forall in Hle. apply Hle in H0. lia.
Qed.

Lemma index_of_0_iff u v :
  NoDup u → u !! 0%nat = Some 0 → v ∈ u → (index_of v u = 0%nat ↔ v = 0).
Proof.
  intros Hnd H0 Hv. split.
  - intros Hi. apply lookup_index_of in Hv. rewrite Hi in Hv. congruence.
  - intros ->. by apply index_of_lookup.
Qed.

End Unique.

Section DenseRoundTrip.

Import SpotLabels.

Lemma sumZ_imap_none (F : nat → Z → Z) (l : list Z) :
  (∀ p v, (p < length l)%nat → F p v = 0) → sumZ (imap F l) = 0.
Proof.
  revert F. induction l as [|x l IH]; intros F HF; [done|].
  rewrite imap_cons. cbn [sumZ foldr]. rewrite HF by (cbn; lia).
  change (foldr Z.add 0 ?l) with (sumZ l).
  rewrite IH; [done|]. intros p v Hp. apply HF. cbn. lia.
Qed.

Lemma sumZ_imap_pick (F : nat → Z → Z) (t : nat) (l : list Z) :
  (∀ p v, (p < length l)%nat → p ≠ t → F p v = 0) →
  (∀ v, F t v = v) →
  sumZ (imap F l) = default 0 (l !! t).
Proof.
  revert F t. induction l as [|x l IH]; intros F t Hne Ht; [done|].
  rewrite imap_cons. cbn [sumZ foldr].
  change (foldr Z.add 0 ?l) with (sumZ l). destruct t as [|t].
  - rewrite Ht, sumZ_imap_none; [cbn; lia|].
    intros p v Hp. apply Hne; [cbn; lia|done].
  - rewrite Hne by (cbn; lia). rewrite (IH _ t); [done| |].
    + intros p v Hp Hpt. apply Hne; [cbn; lia|lia].
    + intros v. apply Ht.
Qed.

(** Summing the stored values selected by a test on the position is summing
    the dense values at the selected positions; dropping zeros changes
    nothing. *)
Lemma sumZ_select (g : nat → nat * nat) (test : nat * nat → bool) (l : list Z) :
  sumZ ((λ e : nat * nat * Z, e.2) <$>
        List.filter (λ e : nat * nat * Z, test e.1)
          (List.filter (λ e : nat * nat * Z, negb (bool_decide (e.2 = 0)))
             (imap (λ p v, (g p, v)) l)))
  = sumZ (imap (λ p v, if test (g p) then v else 0) l).
Proof.
  revert g. induction l as [|x l IH]; intros g; [done|].
  rewrite !imap_cons. specialize (IH (g ∘ S)).
  cbn [List.filter snd]. case_bool_decide as Hx; cbn [negb].
  - subst x. cbn [sumZ foldr]. change (foldr Z.add 0 ?l) with (sumZ l).
    etrans; [exact IH|]. unfold compose. by destruct (test (g 0%nat)).
  - cbn [List.filter fst]. destruct (test (g 0%nat)); cbn [fmap list_fmap sumZ foldr snd];
      change (foldr Z.add 0 ?l) with (sumZ l); f_equal; exact IH.
Qed.

Lemma div_mod_position (Cn i j p : nat) :
  (j < Cn)%nat → ((p / Cn = i ∧ p mod Cn = j) ↔ p = i * Cn + j)%nat.
Proof.
  intros Hj. split.
  - intros [<- <-]. rewrite (Nat.div_mod_eq p Cn) at 1. lia.
  - intros ->. split.
    + symmetry. apply (Nat.div_unique _ _ _ j); lia.
    + symmetry. apply (Nat.mod_unique _ _ i); lia.
Qed.

Lemma coo_at_of_array a i j :
  (j < (nd_shape a).2)%nat →
  coo_at (coo_matrix_of_array a) i j
  = default 0 (nd_flat a !! (i * (nd_shape a).2 + j)%nat).
Proof.
  intros Hj. unfold coo_at, coo_matrix_of_array. cbn [entries].
  etrans;
    [exact (sumZ_select
              (λ p, ((p / (nd_shape a).2)%nat, (p mod (nd_shape a).2)%nat))
              (λ ij, bool_decide (ij.1 = i) && bool_decide (ij.2 = j))
              (nd_flat a))|].
  apply sumZ_imap_pick.
  - intros p v _ Hp. cbn.
    destruct (_ && _) eqn:Hb; [|done].
    apply andb_true_iff in Hb as [Hi Hj'%bool_decide_eq_true].
    apply bool_decide_eq_true in Hi.
    exfalso. apply Hp. by apply div_mod_position.
  - intros v. cbn.
    destruct (proj2 (div_mod_position (nd_shape a).2 i j _ Hj) eq_refl) as [-> ->].
    by rewrite !bool_decide_eq_true_2.
Qed.

(** A dense array with as many elements as its shape says survives the
    round trip through [coo_matrix]. *)
Lemma toarray_of_array a :
  length (nd_flat a) = ((nd_shape a).1 * (nd_shape a).2)%nat →
  toarray (coo_matrix_of_array a) = a.
Proof.
  intros Hlen. destruct a as [[R Cn] flat]. cbn in *.
  unfold toarray. cbn [shape coo_matrix_of_array nd_shape fst snd]. f_equal.
  apply list_eq. intros n.
  destruct (decide (n < R * Cn)%nat) as [Hn|Hn].
  - assert (HC : (0 < Cn)%nat) by (destruct Cn; lia).
    assert (Hi : (n / Cn < R)%nat) by (apply Nat.Div0.div_lt_upper_bound; lia).
    assert (Hj : (n mod Cn < Cn)%nat) by (apply Nat.mod_upper_bound; lia).
    assert (Hn' : n = (n / Cn * Cn + n mod Cn)%nat)
      by (rewrite (Nat.div_mod_eq n Cn) at 1; lia).
    rewrite Hn' at 1.
    rewrite (lookup_row_major (λ i j, coo_at _ i j)) by done.
    rewrite Nat.add_0_l.
    rewrite (coo_at_of_array {| nd_shape := (R, Cn); nd_flat := flat |}) by done.
    cbn [nd_shape nd_flat snd]. rewrite <- Hn'.
    destruct (flat !! n) eqn:Hfl; [done|].
    apply lookup_ge_None in Hfl. lia.
  - rewrite !(proj2 (lookup_ge_None _ _)); [done|lia|].
    rewrite length_row_major. lia.
Qed.

Lemma length_toarray coo :
  length (nd_flat (toarray coo)) = ((shape coo).1 * (shape coo).2)%nat.
Proof. apply length_row_major. Qed.

End DenseRoundTrip.

Section ReorderLabels.

Import SpotLabels.

Lemma toarray_reorder_labels coo :
  toarray (reorder_labels coo) =
    {| nd_shape := shape coo;
       nd_flat := (λ v, Z.of_nat (index_of v (np_unique (nd_flat (toarray coo)))))
                    <$> nd_flat (toarray coo) |}.
Proof.
  unfold reorder_labels, np_unique_inverse, flatten, reshape.
  apply toarray_of_array. cbn [nd_flat nd_shape].
  rewrite length_fmap. apply length_toarray.
Qed.

Lemma elem_of_cell_labels a k : k ∈ cell_labels a ↔ k ≠ 0 ∧ k ∈ nd_flat a.
Proof.
  unfold cell_labels. rewrite elem_of_list_to_set, list_elem_of_In, filter_In.
  rewrite <- list_elem_of_In, negb_true_iff, bool_decide_eq_false. tauto.
Qed.

Lemma size_cell_labels a :
  0 ∈ nd_flat a → S (size (cell_labels a)) = len_set (nd_flat a).
Proof.
  intros H0. rewrite len_set_size.
  assert (Heq : cell_labels a = list_to_set (nd_flat a) ∖ {[0]}).
  { apply set_eq. intros k.
    rewrite elem_of_cell_labels, elem_of_difference, elem_of_list_to_set,
      elem_of_singleton. tauto. }
  assert (Hsub : ({[0]} : gset Z) ⊆ list_to_set (nd_flat a)).
  { intros k ->%elem_of_singleton. by apply elem_of_list_to_set. }
  rewrite Heq, size_difference, size_singleton by done.
  pose proof (subseteq_size _ _ Hsub) as Hle. rewrite size_singleton in Hle. lia.
Qed.

(** On an image with non-negative labels and at least one background
    pixel, [reorder_labels] renames the cells to 1..N. *)
Lemma reorder_labels_relabelled coo :
  Forall (λ v, 0 ≤ v) (nd_flat (toarray coo)) →
  0 ∈ nd_flat (toarray coo) →
  relabelled (toarray coo) (toarray (reorder_labels coo)).
Proof.
  intros Hnn H0. rewrite toarray_reorder_labels.
  set (flat := nd_flat (toarray coo)) in *.
  set (u := np_unique flat).
  assert (Hu : ∀ v, v ∈ flat → v ∈ u) by (intros v; apply elem_of_np_unique).
  assert (Hnd : NoDup u) by apply NoDup_np_unique.
  assert (Hhd : u !! 0%nat = Some 0).
  { apply sorted_head_0; [apply sorted_np_unique| |by apply Hu].
    apply Forall_forall. intros v Hv. apply (elem_of_np_unique flat) in Hv.
    rewrite Forall_forall in Hnn. by apply Hnn. }
  split_and!; cbn [nd_shape nd_flat].
  - done.
  - apply Forall2_fmap_r, Forall_Forall2_diag, Forall_forall. intros v Hv.
    unfold compose. etrans; [|apply (index_of_0_iff u v); auto]. lia.
  - intros p q v w v' w' Hp Hq Hp' Hq'.
    change (flat !! p = Some v) in Hp. change (flat !! q = Some w) in Hq.
    rewrite list_lookup_fmap, Hp in Hp'. rewrite list_lookup_fmap, Hq in Hq'.
    cbn in Hp', Hq'. injection Hp' as <-. injection Hq' as <-.
    assert (Hv : v ∈ u) by (apply Hu, list_elem_of_lookup; eauto).
    assert (Hw : w ∈ u) by (apply Hu, list_elem_of_lookup; eauto).
    split; [|by intros ->].
    intros Heq%Nat2Z.inj. by apply (index_of_inj v w u).
  - intros k.
    assert (Hsize : S (size (cell_labels (toarray coo))) = length u).
    { unfold u. rewrite length_np_unique. by apply size_cell_labels. }
    rewrite elem_of_cell_labels. cbn [nd_flat]. rewrite list_elem_of_fmap. split.
    + intros (Hk & v & -> & Hv). apply Hu in Hv.
      pose proof (index_of_lt v u Hv). lia.
    + intros Hk. split; [lia|].
      destruct (lookup_lt_is_Some_2 u (Z.to_nat k)) as [v Hv]; [lia|].
      exists v. split.
      * rewrite (index_of_lookup u (Z.to_nat k) v) by done. lia.
      * apply elem_of_np_unique, list_elem_of_lookup. eauto.
Qed.

End ReorderLabels.

Section Canonical.

Import SpotLabels.

Lemma coo_at_nonzero coo i j :
  coo_at coo i j ≠ 0 → ∃ v, (i, j, v) ∈ entries coo.
Proof.
  unfold coo_at. induction (entries coo) as [|[[i' j'] v'] es IH]; [done|].
  cbn [List.filter fst snd].
  destruct (bool_decide (i' = i) && bool_decide (j' = j)) eqn:Hb.
  - apply andb_true_iff in Hb as [->%bool_decide_eq_true ->%bool_decide_eq_true].
    intros _. exists v'. apply elem_of_cons. by left.
  - intros [v Hv]%IH. exists v. apply elem_of_cons. by right.
Qed.

Lemma coo_at_stored coo i j v :
  NoDup ((λ e : nat * nat * Z, e.1) <$> entries coo) →
  (i, j, v) ∈ entries coo → coo_at coo i j = v.
Proof.
  unfold coo_at. induction (entries coo) as [|[[i' j'] v'] es IH];
    intros Hnd Hin; [by apply elem_of_nil in Hin|].
  cbn in Hnd. apply NoDup_cons in Hnd as [Hfresh Hnd].
  cbn [List.filter fst snd]. apply elem_of_cons in Hin as [Heq|Hin].
  - injection Heq as <- <- <-. rewrite !bool_decide_eq_true_2 by done.
    cbn [andb fmap list_fmap sumZ foldr snd].
    change (foldr Z.add 0 ?l) with (sumZ l).
    destruct (decide (coo_at {| shape := (0, 0)%nat; entries := es |} i j = 0))
      as [Hz|Hnz].
    + unfold coo_at in Hz. cbn [entries] in Hz. rewrite Hz. lia.
    + apply coo_at_nonzero in Hnz as [w Hw]. cbn [entries] in Hw.
      exfalso. apply Hfresh. apply list_elem_of_fmap. by exists (i, j, w).
  - destruct (bool_decide (i' = i) && bool_decide (j' = j)) eqn:Hb; [|by apply IH].
    apply andb_true_iff in Hb as [->%bool_decide_eq_true ->%bool_decide_eq_true].
    exfalso. apply Hfresh. apply list_elem_of_fmap. by exists (i, j, v).
Qed.

(** Every element of the dense image is the value at some in-range
    position. *)
Lemma elem_of_toarray coo v :
  v ∈ nd_flat (toarray coo) ↔
  ∃ i j, (i < (shape coo).1)%nat ∧ (j < (shape coo).2)%nat ∧ coo_at coo i j = v.
Proof.
  cbn. rewrite list_elem_of_bind. split.
  - intros (i & Hv & Hi). apply list_elem_of_fmap in Hv as (j & -> & Hj).
    apply elem_of_seq in Hi, Hj. exists i, j. split_and!; [lia..|done].
  - intros (i & j & Hi & Hj & <-). exists i. split.
    + apply list_elem_of_fmap. exists j. split; [done|]. apply elem_of_seq. lia.
    + apply elem_of_seq. lia.
Qed.

(** In a canonical matrix the stored labels are the cell labels of the
    dense image. *)
Lemma data_cell_labels coo :
  coo_canonical coo → list_to_set (data coo) = cell_labels (toarray coo).
Proof.
  intros (Hwf & Hnd & Hpos). apply set_eq. intros v.
  rewrite elem_of_list_to_set, elem_of_cell_labels, elem_of_toarray.
  unfold data. rewrite list_elem_of_fmap. split.
  - intros ([[i j] v'] & -> & Hin). cbn.
    unfold coo_wf in Hwf. rewrite Forall_forall in Hwf, Hpos.
    pose proof (Hwf _ Hin) as [Hi Hj]. pose proof (Hpos _ Hin) as Hv. cbn in *.
    split; [lia|]. exists i, j. split_and!; [done..|]. by apply coo_at_stored.
  - intros (Hv & i & j & _ & _ & Hat).
    destruct (coo_at_nonzero coo i j) as [w Hw]; [congruence|].
    exists (i, j, w). split; [|done]. cbn.
    rewrite <- Hat. by apply coo_at_stored.
Qed.

Lemma toarray_nonneg coo :
  coo_canonical coo → Forall (λ v, 0 ≤ v) (nd_flat (toarray coo)).
Proof.
  intros Hc. apply Forall_forall. intros v Hv.
  destruct (decide (v = 0)) as [->|Hnz]; [done|].
  assert (Hl : v ∈ cell_labels (toarray coo)) by (by apply elem_of_cell_labels).
  rewrite <- data_cell_labels in Hl by done.
  apply elem_of_list_to_set in Hl. unfold data in Hl.
  apply list_elem_of_fmap in Hl as (e & -> & He).
  destruct Hc as (_ & _ & Hpos). rewrite Forall_forall in Hpos.
  apply Hpos in He. lia.
Qed.

End Canonical.

Section Guard.

Import SpotLabels.

Lemma foldl_max_spec v l :
  foldl Z.max v l ∈ v :: l ∧ ∀ x, x ∈ v :: l → x ≤ foldl Z.max v l.
Proof.
  revert v. induction l as [|a l IH]; intros v; cbn.
  - split; [apply elem_of_cons; by left|].
    intros x ->%list_elem_of_singleton. lia.
  - destruct (IH (Z.max v a)) as [Hin Hle]. split.
    + apply elem_of_cons in Hin as [Heq|Hin].
      * rewrite Heq. destruct (Z.max_spec v a) as [[_ ->]|[_ ->]].
        -- apply elem_of_cons. right. apply elem_of_cons. by left.
        -- apply elem_of_cons. by left.
      * apply elem_of_cons. right. apply elem_of_cons. by right.
    + intros x Hx.
      assert (Hmax : Z.max v a ≤ foldl Z.max (Z.max v a) l).
      { apply Hle. apply elem_of_cons. by left. }
      apply elem_of_cons in Hx as [->|Hx]; [lia|].
      apply elem_of_cons in Hx as [->|Hx]; [lia|].
      apply Hle. apply elem_of_cons. by right.
Qed.

Lemma np_max_spec l m :
  np_max l = Ok m → m ∈ l ∧ ∀ x, x ∈ l → x ≤ m.
Proof.
  destruct l as [|v l]; [done|]. intros [= <-]. apply foldl_max_spec.
Qed.

(** For positive labels, the check [max == len(set)] of line 60 holds
    exactly when the labels are 1..N. *)
Lemma max_eq_count_iff l m :
  Forall (λ v, 0 < v) l →
  np_max l = Ok m →
  m = Z.of_nat (len_set l) ↔
  ∀ k, k ∈ (list_to_set l : gset Z) ↔ 1 ≤ k ≤ Z.of_nat (len_set l).
Proof.
  intros Hpos [Hm Hle]%np_max_spec. rewrite Forall_forall in Hpos.
  rewrite len_set_size. set (S := list_to_set l : gset Z).
  assert (HmS : m ∈ S) by (by apply elem_of_list_to_set).
  split.
  - intros Heq.
    set (T := list_to_set (seqZ 1 (Z.of_nat (size S))) : gset Z).
    assert (Hsub : S ⊆ T).
    { intros x Hx%elem_of_list_to_set. apply elem_of_list_to_set, elem_of_seqZ.
      pose proof (Hpos x Hx). pose proof (Hle x Hx). lia. }
    assert (HsT : size T = size S).
    { unfold T. rewrite size_list_to_set by apply NoDup_seqZ.
      rewrite length_seqZ. lia. }
    assert (HST : S = T) by (apply set_subseteq_size_eq; [done|lia]).
    intros k. rewrite HST at 1. unfold T.
    rewrite elem_of_list_to_set, elem_of_seqZ. lia.
  - intros Hall.
    assert (Hm1 : 1 ≤ m ≤ Z.of_nat (size S)) by (by apply Hall).
    assert (HnS : Z.of_nat (size S) ∈ S) by (apply Hall; lia).
    apply elem_of_list_to_set, Hle in HnS. lia.
Qed.

End Guard.

Section RelabelSpec.

Import SpotLabels.

Lemma relabelled_refl a :
  (∀ k, k ∈ cell_labels a ↔ 1 ≤ k ≤ Z.of_nat (size (cell_labels a))) →
  relabelled a a.
Proof.
  intros Hl. split_and!; [done| |..|done].
  - by apply Forall_Forall2_diag, Forall_forall.
  - intros p q v w v' w' Hp Hq Hp' Hq'.
    assert (v' = v) as -> by congruence. assert (w' = w) as -> by congruence.
    done.
Qed.

(** X22.  What lines 60-62 achieve.  For a canonical label image with at least
    one stored label and at least one background pixel, the image the rest
    of [stage_data] works on renames the cells to 1..N, and it is the input
    itself when the labels already were 1..N. *)
Lemma relabel_if_needed_spec coo :
  coo_canonical coo →
  entries coo ≠ [] →
  0 ∈ nd_flat (toarray coo) →
  ∃ coo',
    relabel_if_needed coo = Ok coo' ∧
    relabelled (toarray coo) (toarray coo') ∧
    ((∀ k, k ∈ cell_labels (toarray coo) ↔
           1 ≤ k ≤ Z.of_nat (size (cell_labels (toarray coo)))) →
     coo' = coo).
Proof.
  intros Hc Hne H0. unfold relabel_if_needed.
  destruct (np_max (data coo)) as [m|e] eqn:Hmax.
  2: { unfold data in Hmax. destruct (entries coo); [done|discriminate]. }
  assert (Hpos : Forall (λ v, 0 < v) (data coo)).
  { destruct Hc as (_ & _ & Hpos). unfold data. by apply Forall_fmap. }
  pose proof (max_eq_count_iff (data coo) m Hpos Hmax) as Hguard.
  rewrite (data_cell_labels coo Hc) in Hguard.
  assert (Hsz : len_set (data coo) = size (cell_labels (toarray coo))).
  { by rewrite len_set_size, data_cell_labels. }
  rewrite Hsz in Hguard. cbn. rewrite Hsz.
  case_bool_decide as Hb.
  - eexists. split; [done|]. split.
    + apply reorder_labels_relabelled; [by apply toarray_nonneg|done].
    + intros Hl. apply Hguard in Hl. done.
  - exists coo. split; [done|]. split; [|done].
    apply relabelled_refl. by apply Hguard.
Qed.

End RelabelSpec.

(** [relabel_if_needed_spec] on the sample image (labels 5 and 3, two
    background pixels): it is relabelled to 2 and 1. *)
Lemma relabel_if_needed_spec_witness :
  SpotLabels.coo_canonical SampleData.coo ∧
  SpotLabels.entries SampleData.coo ≠ [] ∧
  0 ∈ SpotLabels.nd_flat (SpotLabels.toarray SampleData.coo) ∧
  ∃ coo',
    SpotLabels.relabel_if_needed SampleData.coo = Ok coo' ∧
    SpotLabels.relabelled (SpotLabels.toarray SampleData.coo)
                          (SpotLabels.toarray coo') ∧
    ((∀ k, k ∈ SpotLabels.cell_labels (SpotLabels.toarray SampleData.coo) ↔
           1 ≤ k ≤ Z.of_nat (size (SpotLabels.cell_labels
                                     (SpotLabels.toarray SampleData.coo)))) →
     coo' = SampleData.coo).
Proof.
  assert (Hc : SpotLabels.coo_canonical SampleData.coo).
  { split_and!.
    - repeat constructor.
    - apply (bool_decide_unpack _). by vm_compute.
    - repeat constructor. }
  assert (Hne : SpotLabels.entries SampleData.coo ≠ []) by done.
  assert (H0 : 0 ∈ SpotLabels.nd_flat (SpotLabels.toarray SampleData.coo)).
  { apply elem_of_cons. right. apply elem_of_cons. by left. }
  split; [exact Hc|]. split; [exact Hne|]. split; [exact H0|].
  exact (relabel_if_needed_spec SampleData.coo Hc Hne H0).
Defined.

(** C2, as the code behaves.  On a 1-by-2 image covered by cells 2 and 3,
    with no background pixel, the labels are not 1..2, the image is
    relabelled, and cell 2 becomes background: the new image is [0 1], with
    one cell label instead of two. *)
Theorem relabel_without_background_loses_cell :
  let coo := SampleData.coo_no_background in
  SpotLabels.nd_flat (SpotLabels.toarray coo) = [2; 3] ∧
  ∃ coo',
    SpotLabels.relabel_if_needed coo = Ok coo' ∧
    SpotLabels.nd_flat (SpotLabels.toarray coo') = [0; 1].
Proof.
  split; [reflexivity|]. eexists. split; reflexivity.
Qed.

(** * Properties of the modelled inference engine *)

Section Distributions.

Import Engine.
Open Scope Q_scope.

Lemma sumQ_app l1 l2 : sumQ (l1 ++ l2) == sumQ l1 + sumQ l2.
Proof.
  induction l1 as [|q l1 IH]; cbn.
  - by rewrite Qplus_0_l.
  - rewrite IH. apply Qplus_assoc.
Qed.

Lemma sumQ_nonneg l : Forall (λ q, 0 <= q) l → 0 <= sumQ l.
Proof.
  induction 1 as [|q l Hq _ IH]; cbn; [apply Qle_refl|].
  replace 0 with (0 + 0) by done. by apply Qplus_le_compat.
Qed.

Lemma sumQ_pos l q :
  Forall (λ q, 0 <= q) l → q ∈ l → 0 < q → 0 < sumQ l.
Proof.
  intros Hall Hin Hq. induction Hall as [|q' l Hq' Hall IH]; [by apply elem_of_nil in Hin|].
  cbn. apply elem_of_cons in Hin as [<-|Hin].
  - apply Qlt_le_trans with (q + 0).
    + by rewrite Qplus_0_r.
    + apply Qplus_le_compat; [apply Qle_refl|by apply sumQ_nonneg].
  - apply Qlt_le_trans with (0 + sumQ l).
    + rewrite Qplus_0_l. by apply IH.
    + apply Qplus_le_compat; [done|apply Qle_refl].
Qed.

Lemma sumQ_scaled (t : Q) l : sumQ ((λ w, w / t) <$> l) == sumQ l / t.
Proof.
  induction l as [|q l IH]; cbn.
  - unfold Qdiv. by rewrite Qmult_0_l.
  - rewrite IH. unfold Qdiv. by rewrite Qmult_plus_distr_l.
Qed.

Lemma distribution_of_sum v :
  Forall (λ q, 0 <= q) v → sumQ v == 1 → distribution v.
Proof.
  intros Hnn Hsum. split_and!; [done..|].
  rewrite Hsum. done.
Qed.

Lemma distribution_normalize ws :
  Forall (λ q, 0 <= q) ws → 0 < sumQ ws → distribution (normalize ws).
Proof.
  intros Hnn Hpos. apply distribution_of_sum.
  - unfold normalize. apply Forall_fmap. eapply Forall_impl; [exact Hnn|].
    intros q Hq. cbn. unfold Qdiv. apply Qmult_le_0_compat; [done|].
    apply Qinv_le_0_compat. by apply Qlt_le_weak.
  - unfold normalize. rewrite sumQ_scaled. unfold Qdiv.
    apply Qmult_inv_r. intros H0. rewrite H0 in Hpos. by apply Qlt_irrefl in Hpos.
Qed.

Lemma sumQ_replicate_0 n : sumQ (replicate n 0) == 0.
Proof. induction n as [|n IH]; cbn; [done|]. by rewrite IH. Qed.

Lemma distribution_one_hot_last n : distribution (one_hot_last n).
Proof.
  apply distribution_of_sum.
  - unfold one_hot_last. apply Forall_app. split.
    + apply Forall_replicate. apply Qle_refl.
    + by repeat constructor.
  - unfold one_hot_last. rewrite sumQ_app, sumQ_replicate_0. done.
Qed.

End Distributions.

Section EngineSpec.

Import Engine.
Open Scope Q_scope.

Variable proximity : model → spot → Z → Q.
Variable spot_loglik : model → state → spot → Z → Q.
Variable class_loglik : model → state → cell → nat → Q.
Variable eff_ratio : model → state → string → Q.
Variable expQ : Q → Q.
Hypothesis expQ_pos : ∀ q, 0 < expQ q.

#[local] Abbreviation spot_posterior' := (spot_posterior expQ).
#[local] Abbreviation cell_posterior' := (cell_posterior expQ).
#[local] Abbreviation init_state' := (init_state proximity expQ).
#[local] Abbreviation step' := (step spot_loglik class_loglik eff_ratio expQ).
#[local] Abbreviation iterate' := (iterate spot_loglik class_loglik eff_ratio expQ).
#[local] Abbreviation run' :=
  (run proximity spot_loglik class_loglik eff_ratio expQ).

Lemma spot_posterior_distribution m lw s :
  0 <= misread (m_hp m) → distribution (spot_posterior' m lw s).
Proof.
  intros Hmis. unfold spot_posterior.
  destruct (candidates s) as [|c cs] eqn:Hc.
  - apply distribution_of_sum; [by repeat constructor|done].
  - apply distribution_normalize.
    + apply Forall_app. split; [|by repeat constructor].
      apply Forall_fmap, Forall_forall. intros c' _. cbn.
      apply Qlt_le_weak, expQ_pos.
    + apply (sumQ_pos _ (expQ (lw c))).
      * apply Forall_app. split; [|by repeat constructor].
        apply Forall_fmap, Forall_forall. intros c' _. cbn.
        apply Qlt_le_weak, expQ_pos.
      * cbn. apply elem_of_cons. by left.
      * apply expQ_pos.
Qed.

Lemma class_weights_nonneg m lw :
  Forall (λ q, 0 <= q) (class_prior (m_hp m)) →
  Forall (λ q, 0 <= q) (class_weights expQ m lw).
Proof.
  intros Hprior. unfold class_weights. apply Forall_lookup.
  intros k q Hk. apply list_lookup_imap_Some in Hk as (c & _ & ->).
  apply Qmult_le_0_compat; [|apply Qlt_le_weak, expQ_pos].
  destruct (class_prior (m_hp m) !! k) as [pk|] eqn:Hpk; cbn; [|apply Qle_refl].
  by eapply (Forall_lookup_1 _ _ _ _ Hprior).
Qed.

Lemma cell_posterior_distribution m lw :
  Forall (λ q, 0 <= q) (class_prior (m_hp m)) →
  distribution (cell_posterior' m lw).
Proof.
  intros Hprior. unfold cell_posterior, cell_degenerate.
  destruct (Qle_bool _ 0) eqn:Hdeg.
  - apply distribution_one_hot_last.
  - apply distribution_normalize; [by apply class_weights_nonneg|].
    apply Qnot_le_lt. intros Hle. apply Qle_bool_iff in Hle. congruence.
Qed.

Lemma step_normalised m st : hyper_ok (m_hp m) → normalised (step' m st).
Proof.
  intros [Hmis Hprior]. split; cbn.
  - apply Forall_fmap, Forall_forall. intros c _. cbn.
    by apply cell_posterior_distribution.
  - apply Forall_fmap, Forall_forall. intros s _. cbn.
    by apply spot_posterior_distribution.
Qed.

Lemma init_state_normalised m : hyper_ok (m_hp m) → normalised (init_state' m).
Proof.
  intros [Hmis Hprior]. split; cbn.
  - apply Forall_fmap, Forall_forall. intros c _. cbn.
    by apply cell_posterior_distribution.
  - apply Forall_fmap, Forall_forall. intros s _. cbn.
    by apply spot_posterior_distribution.
Qed.

Lemma iterate_normalised m budget st :
  hyper_ok (m_hp m) → normalised st → normalised (iterate' m budget st).1.
Proof.
  intros Hh. revert st. induction budget as [|budget IH]; intros st Hst; [done|].
  cbn. destruct (converged _ _ _); cbn.
  - by apply step_normalised.
  - apply IH. by apply step_normalised.
Qed.

Lemma iterate_complete m budget st :
  complete m st → complete m (iterate' m budget st).1.
Proof.
  revert st. induction budget as [|budget IH]; intros st Hst; [done|].
  assert (Hstep : complete m (step' m st)).
  { split; cbn; by rewrite length_fmap. }
  cbn. destruct (converged _ _ _); cbn; [done|]. by apply IH.
Qed.

Lemma init_state_complete m : complete m (init_state' m).
Proof. split; cbn; by rewrite length_fmap. Qed.

(** C5.  Whatever state an iteration starts from, the state it ends in has,
    for every cell, a class posterior without negative entries that sums to
    1 (hence within 1e-6 of 1), and for every spot a posterior over its
    candidates and the background with the same property. *)
Theorem posteriors_normalised_after_iteration p st :
  hyper_ok (hp p) →
  let st' := step' (build_model p) st in
  Forall distribution (cell_post st') ∧
  Forall distribution (spot_post st') ∧
  Forall2 (λ s v, length v = S (length (candidates s)))
          (m_spots (build_model p)) (spot_post st').
Proof.
  intros Hh st'.
  destruct (step_normalised (build_model p) st Hh) as [Hc Hs].
  split_and!; [done..|].
  unfold st'. cbn. apply Forall2_fmap_r, Forall_Forall2_diag, Forall_forall.
  intros s _. unfold compose, spot_posterior.
  destruct (candidates s) as [|c cs]; [done|].
  unfold normalize. rewrite length_fmap, length_app, length_fmap. cbn. lia.
Qed.

(** C6.  When the budget of iterations is spent without the change falling
    below the tolerance, the run is not aborted: it returns an outcome that
    carries [NonConvergenceWarning] and whose state is complete and
    normalised. *)
Theorem budget_exhausted_is_reported p :
  schema_ok p = true →
  hyper_ok (hp p) →
  (iterate' (build_model p) (max_iter (hp p)) (init_state' (build_model p))).2
    = false →
  ∃ o, run' p = inr o ∧
       NonConvergenceWarning ∈ notes o ∧
       normalised (final o) ∧
       complete (build_model p) (final o).
Proof.
  intros Hok Hh Hflag. unfold run. rewrite Hok.
  pose proof (iterate_normalised (build_model p) (max_iter (hp p)) _ Hh
                (init_state_normalised (build_model p) Hh)) as Hn.
  pose proof (iterate_complete (build_model p) (max_iter (hp p)) _
                (init_state_complete (build_model p))) as Hc.
  destruct (iterate' _ _ _) as [st conv]. cbn in *. subst conv.
  eexists. split; [done|]. cbn. split_and!; [|done..].
  apply elem_of_cons. by left.
Qed.

End EngineSpec.

Section EngineInstances.

Import Engine.
Open Scope Q_scope.

Lemma exp2_pos q : 0 < exp2 q.
Proof. unfold exp2. by apply Qpower_0_lt. Qed.

Lemma sample_hyper_ok : hyper_ok Sample.hyper.
Proof.
  split; [done|]. cbn. repeat constructor; done.
Qed.

(** [posteriors_normalised_after_iteration] on the sample problem, from its
    initial state. *)
Lemma posteriors_normalised_after_iteration_witness :
  let m := build_model Sample.problem in
  let st' := step Sample.spot_loglik Sample.class_loglik Sample.eff_ratio exp2 m
                  (init_state Sample.proximity exp2 m) in
  (∀ q, 0 < exp2 q) ∧
  hyper_ok (hp Sample.problem) ∧
  Forall distribution (cell_post st') ∧
  Forall distribution (spot_post st') ∧
  Forall2 (λ s v, length v = S (length (candidates s))) (m_spots m) (spot_post st').
Proof.
  intros m st'.
  split; [exact exp2_pos|]. split; [exact sample_hyper_ok|].
  exact (posteriors_normalised_after_iteration
           Sample.spot_loglik Sample.class_loglik Sample.eff_ratio exp2 exp2_pos
           Sample.problem (init_state Sample.proximity exp2 m) sample_hyper_ok).
Defined.

(** [budget_exhausted_is_reported] on the sample problem, whose budget is
    one iteration and whose tolerance cannot be met. *)
Lemma budget_exhausted_is_reported_witness :
  (∀ q, 0 < exp2 q) ∧
  schema_ok Sample.problem = true ∧
  hyper_ok (hp Sample.problem) ∧
  (iterate Sample.spot_loglik Sample.class_loglik Sample.eff_ratio exp2
           (build_model Sample.problem) (max_iter (hp Sample.problem))
           (init_state Sample.proximity exp2 (build_model Sample.problem))).2
    = false ∧
  ∃ o, Sample.run Sample.problem = inr o ∧
       NonConvergenceWarning ∈ notes o ∧
       normalised (final o) ∧
       complete (build_model Sample.problem) (final o).
Proof.
  split; [exact exp2_pos|]. split; [reflexivity|].
  split; [exact sample_hyper_ok|]. split; [reflexivity|].
  exact (budget_exhausted_is_reported
           Sample.proximity Sample.spot_loglik Sample.class_loglik
           Sample.eff_ratio exp2 exp2_pos Sample.problem
           eq_refl sample_hyper_ok eq_refl).
Defined.

End EngineInstances.

(** * Further properties of [init] and [fit] *)

Set Warnings "-clear-no-such-hyp".

Section InitMore.

Context {Disk : Type}.
Implicit Types (w : App.world Disk) (opts items : dict).

Import App.

#[local] Ltac mstep :=
  repeat first
    [ rewrite M_bind_eq
    | rewrite M_ret_eq
    | progress unfold dict_keys, deref, setitem, lift, raise
    | progress cbn ].

(** The loop of [init] in closed form: it stores the accepted items and
    raises [TypeError] when an item is left over. *)
Lemma init_items_eq cfg items w :
  init_items cfg items w =
    (if forallb (λ item, isinstance_int_float_list item.2) items
     then Ok () else Raise TypeError,
     {| config_DEFAULT := assigned (config_DEFAULT w) (accepted items);
        disk := disk w |}).
Proof.
  revert w. induction items as [|[k v] items IH]; intros w.
  - by destruct w.
  - destruct cfg. cbn [init_items forallb accepted snd fst].
    destruct (isinstance_int_float_list v) eqn:Hv; mstep.
    + by rewrite IH.
    + by destruct w.
Qed.

Lemma init_Some_eq opts w :
  init (Some opts) w =
    if bool_decide (keys opts ⊆ dom (config_DEFAULT w))
    then (if forallb (λ item, isinstance_int_float_list item.2) opts
          then Ok config_DEFAULT_ref else Raise TypeError,
          {| config_DEFAULT := assigned (config_DEFAULT w) (accepted opts);
             disk := disk w |})
    else (Raise AssertionError, w).
Proof.
  unfold init. mstep. case_bool_decide; mstep; [|done].
  rewrite init_items_eq. by destruct (forallb _ opts).
Qed.

Lemma accepted_app_invalid pre k v post :
  forallb (λ item, isinstance_int_float_list item.2) pre = true →
  isinstance_int_float_list v = false →
  accepted (pre ++ (k, v) :: post) = pre.
Proof.
  intros Hpre Hv. induction pre as [|[k' v'] pre IH]; cbn in *.
  - by rewrite Hv.
  - apply andb_true_iff in Hpre as [-> Hpre]. by rewrite IH.
Qed.

Lemma accepted_subseteq items : accepted items ⊆ items.
Proof.
  induction items as [|item items IH]; [done|]. cbn.
  destruct (isinstance_int_float_list item.2).
  - intros x [->|Hx]%elem_of_cons; apply elem_of_cons; [by left|right; by apply IH].
  - intros x Hx. by apply elem_of_nil in Hx.
Qed.

Lemma assigned_union (d : gmap string pyval) items :
  assigned d items = assigned ∅ items ∪ d.
Proof.
  revert d. induction items as [|[k v] items IH]; intros d; cbn.
  - by rewrite (left_id_L ∅ (∪)).
  - rewrite IH. rewrite (IH (<[k:=v]> ∅)).
    rewrite <- (assoc_L (∪)). f_equal.
    by rewrite insert_union_singleton_l, insert_empty.
Qed.

Lemma assigned_idemp (d : gmap string pyval) items :
  assigned (assigned d items) items = assigned d items.
Proof.
  rewrite (assigned_union (assigned d items)), (assigned_union d).
  by rewrite (assoc_L (∪)), (idemp_L (∪)).
Qed.

Lemma dom_assigned (d : gmap string pyval) items :
  dom (assigned d items) = list_to_set items.*1 ∪ dom d.
Proof.
  revert d. induction items as [|[k v] items IH]; intros d; cbn.
  - by rewrite (left_id_L ∅ (∪)).
  - rewrite IH, dom_insert_L. set_solver.
Qed.

(** X1.  When an entry of [opts] has a value that is not an int, a float or a
    list, [init] raises [TypeError] only after it has stored the entries
    that come before it: [config.DEFAULT] holds them afterwards. *)
Theorem init_type_error_keeps_earlier_options pre k v post w :
  keys (pre ++ (k, v) :: post) ⊆ dom (config_DEFAULT w) →
  forallb (λ item, isinstance_int_float_list item.2) pre = true →
  isinstance_int_float_list v = false →
  init (Some (pre ++ (k, v) :: post)) w =
    (Raise TypeError,
     {| config_DEFAULT := assigned (config_DEFAULT w) pre; disk := disk w |}).
Proof.
  intros Hsub Hpre Hv. rewrite init_Some_eq.
  rewrite bool_decide_eq_true_2 by done.
  rewrite accepted_app_invalid by done.
  rewrite forallb_app. cbn. by rewrite Hv, andb_false_r.
Qed.

Lemma dom_assigned_accepted (d : gmap string pyval) opts :
  keys opts ⊆ dom d → dom (assigned d (accepted opts)) = dom d.
Proof.
  intros Hsub. rewrite dom_assigned.
  assert (Hacc : list_to_set (accepted opts).*1 ⊆ dom d).
  { intros x Hx%elem_of_list_to_set. apply Hsub. unfold keys.
    apply elem_of_list_to_set.
    apply list_elem_of_fmap in Hx as (item & -> & Hitem).
    apply list_elem_of_fmap. exists item. split; [done|].
    by apply accepted_subseteq. }
  set_solver.
Qed.

(** X2.  [init] never adds or removes a configuration key, whether it returns
    or raises. *)
Theorem init_preserves_keys o w :
  dom (config_DEFAULT (init o w).2) = dom (config_DEFAULT w).
Proof.
  destruct o as [opts|]; [|done]. rewrite init_Some_eq.
  case_bool_decide as Hsub; [|done]. cbn. by apply dom_assigned_accepted.
Qed.

(** X3.  [init] leaves every key that [opts] does not name at its value,
    whether it returns or raises. *)
Theorem init_other_keys_untouched opts w k :
  k ∉ opts.*1 →
  config_DEFAULT (init (Some opts) w).2 !! k = config_DEFAULT w !! k.
Proof.
  intros Hk. rewrite init_Some_eq. case_bool_decide; [|done]. cbn.
  apply assigned_lookup_notin. intros Hin. apply Hk.
  apply list_elem_of_fmap in Hin as (item & -> & Hitem).
  apply list_elem_of_fmap. exists item. split; [done|].
  by apply accepted_subseteq.
Qed.

(** X4.  Repeating a call of [init] with the same [opts] has the same outcome
    and changes nothing more. *)
Theorem init_idempotent o w :
  init o (init o w).2 = init o w.
Proof.
  destruct o as [opts|]; [|done].
  rewrite (init_Some_eq opts w).
  destruct (decide (keys opts ⊆ dom (config_DEFAULT w))) as [Hsub|Hsub].
  - rewrite bool_decide_eq_true_2 by done. cbn [snd].
    rewrite init_Some_eq. cbn [config_DEFAULT disk].
    rewrite dom_assigned_accepted by done.
    rewrite bool_decide_eq_true_2 by done. by rewrite assigned_idemp.
  - rewrite bool_decide_eq_false_2 by done. cbn [snd].
    rewrite init_Some_eq. by rewrite bool_decide_eq_false_2.
Qed.

End InitMore.

(** [init_type_error_keeps_earlier_options] on the options [max_iter: 10,
    rSpot: "two"]: [max_iter] is stored before the string is rejected. *)
Lemma init_type_error_keeps_earlier_options_witness :
  let w : App.world () :=
    {| App.config_DEFAULT := {[ "max_iter" := PyInt 1000; "rSpot" := PyInt 2 ]};
       App.disk := () |} in
  let pre : dict := [("max_iter", PyInt 10)] in
  keys (pre ++ [("rSpot", PyStr "two")]) ⊆ dom (App.config_DEFAULT w) ∧
  forallb (λ item, isinstance_int_float_list item.2) pre = true ∧
  isinstance_int_float_list (PyStr "two") = false ∧
  App.init (Some (pre ++ [("rSpot", PyStr "two")])) w =
    (Raise TypeError,
     {| App.config_DEFAULT := App.assigned (App.config_DEFAULT w) pre;
        App.disk := () |}).
Proof.
  intros w pre.
  assert (Hsub : keys (pre ++ [("rSpot", PyStr "two")]) ⊆ dom (App.config_DEFAULT w)).
  { apply (bool_decide_unpack _). by vm_compute. }
  split; [exact Hsub|]. split; [reflexivity|]. split; [reflexivity|].
  exact (init_type_error_keeps_earlier_options pre "rSpot" (PyStr "two") [] w
           Hsub eq_refl eq_refl).
Defined.

(** [init_other_keys_untouched] on the options [max_iter: 10] and the key
    [rSpot]. *)
Lemma init_other_keys_untouched_witness :
  let w : App.world () :=
    {| App.config_DEFAULT := {[ "max_iter" := PyInt 1000; "rSpot" := PyInt 2 ]};
       App.disk := () |} in
  let opts : dict := [("max_iter", PyInt 10)] in
  ("rSpot" ∉ opts.*1) ∧
  App.config_DEFAULT (App.init (Some opts) w).2 !! "rSpot"
    = App.config_DEFAULT w !! "rSpot".
Proof.
  intros w opts.
  assert (Hk : "rSpot" ∉ opts.*1).
  { apply (bool_decide_unpack _). by vm_compute. }
  split; [exact Hk|].
  exact (init_other_keys_untouched opts w "rSpot" Hk).
Defined.

Section FitMore.

Import SpotLabels App.

Context {C P ScRNAseq CellData GeneData Disk : Type}.
Variable regionprops : ndarray → result (list (region C)).
Variable extract_borders_dip : ndarray → Z → Z → list Z → result (list (Z * P)).
Variable VarBayes_run :
  list (cell_row C) → list (spot_row C) → ScRNAseq → gmap string pyval →
  result (CellData * GeneData).
Variable temp_dir : string.
Variable os_path_join : string → string → string.
Variable os_path_exists : string → Disk → bool.
Variable os_makedirs : string → Disk → result () * Disk.
Variable to_csv : frame CellData GeneData P → string → Disk → result () * Disk.
Variable splitter_mb :
  frame CellData GeneData P → string → Z → Disk → result () * Disk.
Variable content : string → Disk → result () * Disk.

#[local] Abbreviation stage_data' := (stage_data regionprops extract_borders_dip).
#[local] Abbreviation cell_type' := (cell_type VarBayes_run).
#[local] Abbreviation write_to_disk' :=
  (write_to_disk temp_dir os_path_join os_path_exists os_makedirs to_csv
                 splitter_mb content).
#[local] Abbreviation fit' :=
  (fit regionprops extract_borders_dip VarBayes_run temp_dir os_path_join
       os_path_exists os_makedirs to_csv splitter_mb content).

Implicit Types (w : world Disk) (opts : option dict).

Lemma cell_type_eq cells spots sc cfg w :
  cell_type' cells spots sc cfg w =
    (VarBayes_run cells spots sc (config_DEFAULT w), w).
Proof. destruct cfg. unfold cell_type. rewrite M_bind_eq. by cbn. Qed.

(** X5.  A value returned by [fit] is the pair the engine returned on the tables
    staged by [stage_data], run with the contents [config.DEFAULT] has after
    [init]. *)
Theorem fit_returns_engine_result iss_spots coo sc opts w r :
  (fit' iss_spots coo sc opts w).1 = Ok r →
  ∃ cells bnd spots,
    stage_data' iss_spots coo = Ok (cells, bnd, spots) ∧
    VarBayes_run cells spots sc (config_DEFAULT (init opts w).2) = Ok r.
Proof.
  rewrite fit_unfold. intros Hfit.
  destruct (init opts w) as [[cfg|e] w0]; [|done].
  destruct (stage_data' iss_spots coo) as [[[cells bnd] spots]|e]; [|done].
  rewrite cell_type_eq in Hfit. cbn [snd].
  destruct (VarBayes_run cells spots sc (config_DEFAULT w0))
    as [[cellData geneData]|e] eqn:Hvb; [|done].
  exists cells, bnd, spots. split; [done|].
  rewrite M_bind_eq in Hfit.
  destruct (write_to_disk' cellData geneData bnd w0) as [[[]|e] w1]; [|done].
  cbn in Hfit. congruence.
Qed.

(** X7.  When everything up to the engine succeeds and [write_to_disk] raises,
    [fit] raises that exception instead of returning the computed tables,
    and the disk is left as [write_to_disk] left it. *)
Theorem fit_write_error_propagates iss_spots coo sc opts w cfg cells bnd spots r e :
  (init opts w).1 = Ok cfg →
  stage_data' iss_spots coo = Ok (cells, bnd, spots) →
  VarBayes_run cells spots sc (config_DEFAULT (init opts w).2) = Ok r →
  (write_to_disk' r.1 r.2 bnd (init opts w).2).1 = Raise e →
  fit' iss_spots coo sc opts w
  = (Raise e, (write_to_disk' r.1 r.2 bnd (init opts w).2).2).
Proof.
  rewrite fit_unfold. intros Hinit Hstage Hvb Hwrite.
  destruct (init opts w) as [[cfg'|e0] w0]; [|done].
  rewrite Hstage, cell_type_eq. cbn [snd] in *. rewrite Hvb.
  destruct r as [cellData geneData]. cbn [fst snd] in *.
  rewrite M_bind_eq.
  destruct (write_to_disk' cellData geneData bnd w0) as [[[]|e'] w1]; cbn in *;
    congruence.
Qed.

End FitMore.

(** [fit_returns_engine_result] on the sample pipeline, where [fit]
    returns. *)
Lemma fit_returns_engine_result_witness :
  let w := SampleData.world0 in
  (SampleData.fit SampleData.spots SampleData.coo () None w).1 = Ok (2%nat, 2%nat) ∧
  ∃ cells bnd spots,
    SpotLabels.stage_data SampleData.regionprops SampleData.extract_borders_dip
      SampleData.spots SampleData.coo = Ok (cells, bnd, spots) ∧
    SampleData.VarBayes_run cells spots ()
      (App.config_DEFAULT (App.init None w).2) = Ok (2%nat, 2%nat).
Proof.
  intros w.
  assert (Hfit : (SampleData.fit SampleData.spots SampleData.coo () None w).1
                 = Ok (2%nat, 2%nat)) by reflexivity.
  split; [exact Hfit|].
  exact (fit_returns_engine_result
           SampleData.regionprops SampleData.extract_borders_dip
           SampleData.VarBayes_run "/tmp" (λ a b, a +:+ "/" +:+ b)
           (λ path d, bool_decide (path ∈ d))
           SampleData.write (λ _ path, SampleData.write path)
           (λ _ path _, SampleData.write path) SampleData.write
           SampleData.spots SampleData.coo () None w (2%nat, 2%nat) Hfit).
Defined.

(** [fit_write_error_propagates] on the sample pipeline with a disk where
    [to_csv] fails: the output directory has been created, no table has been
    written, and [fit] raises [OSError]. *)
Lemma fit_write_error_propagates_witness :
  let w := SampleData.world0 in
  ∃ cells bnd spots,
    (App.init None w).1 = Ok App.config_DEFAULT_ref ∧
    SpotLabels.stage_data SampleData.regionprops SampleData.extract_borders_dip
      SampleData.spots SampleData.coo = Ok (cells, bnd, spots) ∧
    SampleData.VarBayes_run cells spots ()
      (App.config_DEFAULT (App.init None w).2) = Ok (2%nat, 2%nat) ∧
    (SampleData.fit_read_only SampleData.spots SampleData.coo () None w).1
      = Raise OSError ∧
    App.disk (SampleData.fit_read_only SampleData.spots SampleData.coo () None w).2
      = ["/tmp/pciSeq"].
Proof.
  intros w.
  destruct (SpotLabels.stage_data SampleData.regionprops
              SampleData.extract_borders_dip SampleData.spots SampleData.coo)
    as [[[cells bnd] spots]|e0] eqn:Hstage; [|by vm_compute in Hstage].
  exists cells, bnd, spots.
  assert (Hvb : SampleData.VarBayes_run cells spots ()
                  (App.config_DEFAULT (App.init None w).2) = Ok (2%nat, 2%nat)).
  { vm_compute in Hstage. injection Hstage as <- _ <-. reflexivity. }
  split; [reflexivity|]. split; [reflexivity|]. split; [exact Hvb|].
  assert (Hwrite :
    (App.write_to_disk "/tmp" (λ a b, a +:+ "/" +:+ b)
       (λ path d, bool_decide (path ∈ d)) SampleData.write
       (λ _ path d, (Raise OSError, d)) (λ _ path _, SampleData.write path)
       SampleData.write (2%nat, 2%nat).1 (2%nat, 2%nat).2 bnd
       (App.init None w).2).1 = Raise OSError) by reflexivity.
  pose proof (fit_write_error_propagates
           SampleData.regionprops SampleData.extract_borders_dip
           SampleData.VarBayes_run "/tmp" (λ a b, a +:+ "/" +:+ b)
           (λ path d, bool_decide (path ∈ d))
           SampleData.write (λ _ path d, (Raise OSError, d))
           (λ _ path _, SampleData.write path) SampleData.write
           SampleData.spots SampleData.coo () None w
           App.config_DEFAULT_ref cells bnd spots (2%nat, 2%nat) OSError
           eq_refl Hstage Hvb Hwrite) as Hfit.
  unfold SampleData.fit_read_only. rewrite Hfit. split; reflexivity.
Defined.

(** * Further properties of [inside_cell] and [stage_data] *)

Section InsideCellMore.

Import SpotLabels.

Lemma mapM_ext {A B} (f g : A → result B) l :
  (∀ a, a ∈ l → f a = g a) → mapM f l = mapM g l.
Proof.
  induction l as [|a l IH]; intros Hfg; [done|]. cbn.
  rewrite (Hfg a) by (apply elem_of_cons; by left).
  rewrite IH; [done|]. intros a' Ha'. apply Hfg. apply elem_of_cons. by right.
Qed.

Lemma check_index_lt n i k : check_index n i = Ok k → (k < n)%nat.
Proof.
  unfold check_index. destruct (_ && _) eqn:Hb; [|done].
  apply andb_true_iff in Hb as [Hlo%Z.leb_le Hhi%Z.ltb_lt].
  destruct (i <? 0) eqn:Hneg; intros [= <-]; lia.
Qed.

Lemma coo_at_toarray_round coo i j :
  (i < (shape coo).1)%nat → (j < (shape coo).2)%nat →
  coo_at (coo_matrix_of_array (toarray coo)) i j = coo_at coo i j.
Proof.
  intros Hi Hj. rewrite coo_at_of_array by done. cbn [toarray nd_shape nd_flat snd].
  by rewrite (lookup_row_major (λ i j, coo_at coo i j)).
Qed.

(** X8.  [inside_cell] gives the same answer, label or exception, whether the
    label image is handed over as a [coo_matrix], as the dense array of that
    matrix or as its [csr_matrix]; anything else is refused with
    [Exception] before the spots are looked at. *)
Theorem inside_cell_same_for_all_types coo spots :
  inside_cell (ImgArray (toarray coo)) spots = inside_cell (ImgCoo coo) spots ∧
  inside_cell (ImgCsr (tocsr coo)) spots = inside_cell (ImgCoo coo) spots ∧
  inside_cell ImgOther spots = Raise Exception.
Proof.
  split_and!; [|done..].
  unfold inside_cell. cbn [mbind result_bind rbind]. unfold csr_getitem.
  f_equal. apply mapM_ext. intros [py px] _. cbn [fst snd csr_shape csr_matrix_of_array
    tocsr coo_matrix_of_array toarray shape nd_shape].
  destruct (check_index (shape coo).1 py) as [i|e] eqn:Hi; [|done].
  destruct (check_index (shape coo).2 px) as [j|e] eqn:Hj; [|done].
  apply check_index_lt in Hi, Hj. cbn [mbind result_bind rbind]. f_equal.
  rewrite (csr_at_tocsr coo) by done.
  rewrite <- (coo_at_toarray_round coo i j) by done.
  by rewrite <- (csr_at_tocsr (coo_matrix_of_array (toarray coo))).
Qed.

End InsideCellMore.

Section StageDataMore.

Import SpotLabels.

Context {C P : Type}.
Variable regionprops : ndarray → result (list (region C)).
Variable extract_borders_dip : ndarray → Z → Z → list Z → result (list (Z * P)).

#[local] Abbreviation stage_data' := (stage_data regionprops extract_borders_dip).

Lemma assert_Ok b u : assert b = Ok u → b = true.
Proof. by destruct b. Qed.

Lemma relabel_if_needed_shape coo coo' :
  relabel_if_needed coo = Ok coo' → shape coo' = shape coo.
Proof.
  unfold relabel_if_needed. intros H.
  apply result_bind_Ok in H as (m & _ & H).
  case_bool_decide; injection H as <-; done.
Qed.

(** Everything a returned [stage_data] went through, assertions
    included. *)
Lemma stage_data_Ok_inv_full spots coo cells bnd out :
  stage_data' spots coo = Ok (cells, bnd, out) →
  ∃ coo' inc props cb,
    let kept := List.filter (mask coo') spots in
    let props_df :=
      (λ d, (r_label d, r_area d, (r_centroid d).2, (r_centroid d).1)) <$> props in
    let cs := merge_cells props_df cb in
    relabel_if_needed coo = Ok coo' ∧
    inside_cell (ImgCsr (tocsr coo')) kept = Ok inc ∧
    regionprops (astype_int32 (toarray coo')) = Ok props ∧
    extract_borders_dip (astype_uint32 (toarray coo')) 0 0 [0] = Ok cb ∧
    length props = length cb ∧
    length cb = length (np_unique (data coo')) ∧
    (∀ l, l ∈ (zip kept inc).*2 → 0 < l → l ∈ r_label <$> props) ∧
    length cs = length cb ∧
    cells = (λ c : Z * Z * C * C * P,
               {| c_label := c.1.1.1.1; c_area := c.1.1.1.2;
                  c_x := c.1.1.2; c_y := c.1.2 |}) <$> cs ∧
    bnd = (λ c : Z * Z * C * C * P,
             {| cell_id := c.1.1.1.1; coords := c.2 |}) <$> cs ∧
    out = merge_spots (zip kept inc) cs.
Proof.
  unfold stage_data. intros H.
  apply result_bind_Ok in H as (coo' & Hre & H).
  apply result_bind_Ok in H as (inc & Hinc & H).
  apply result_bind_Ok in H as (props & Hprops & H).
  apply result_bind_Ok in H as (cb & Hcb & H).
  apply result_bind_Ok in H as ([] & Ha1 & H).
  apply result_bind_Ok in H as ([] & Ha2 & H).
  apply result_bind_Ok in H as ([] & Ha3 & H).
  injection H as <- <- <-.
  apply assert_Ok, andb_true_iff in Ha1 as [Hl1%bool_decide_eq_true Hl2%bool_decide_eq_true].
  apply assert_Ok in Ha2.
  apply assert_Ok, andb_true_iff in Ha3 as [Hl3%bool_decide_eq_true _].
  rewrite length_fmap in Hl1.
  exists coo', inc, props, cb. cbn zeta. split_and!; try done.
  intros l Hl Hpos. rewrite forallb_forall in Ha2.
  specialize (Ha2 l). rewrite filter_In, <- list_elem_of_In in Ha2.
  specialize (Ha2 (conj Hl (proj2 (Z.ltb_lt _ _) Hpos))).
  apply bool_decide_eq_true in Ha2.
  by rewrite <- list_fmap_compose in Ha2.
Qed.

(** X10.  A label image with no stored label makes [stage_data] raise
    [ValueError], whatever the spots: the maximum of line 60 is taken over
    an empty array. *)
Theorem stage_data_no_cells_raises spots coo :
  entries coo = [] → stage_data' spots coo = Raise ValueError.
Proof.
  intros Hempty. unfold stage_data, relabel_if_needed, data. by rewrite Hempty.
Qed.

(** X11.  When [stage_data] returns, every row of its spot table lies strictly
    inside the image: 0 <= x < width and 0 <= y < height. *)
Theorem stage_data_spots_inside_image spots coo cells bnd out :
  stage_data' spots coo = Ok (cells, bnd, out) →
  ∀ r, r ∈ out →
    0 ≤ x_global r < Z.of_nat (shape coo).2 ∧
    0 ≤ y_global r < Z.of_nat (shape coo).1.
Proof.
  intros H r Hr.
  apply stage_data_Ok_inv in H as (coo' & inc & cs & Hre & Hinc & ->).
  rewrite <- (relabel_if_needed_shape coo coo' Hre).
  set (kept := List.filter (mask coo') spots) in *.
  assert (Hpos : Forall (λ s, 0 ≤ x s ∧ 0 ≤ y s) kept).
  { apply Forall_forall. intros s Hs. apply list_elem_of_In, filter_In in Hs as [_ Hm].
    apply mask_true in Hm. lia. }
  pose proof (inside_cell_pixels coo' kept inc Hpos Hinc) as Hpix.
  apply elem_of_merge_spots in Hr as (s & l & Hsl & -> & -> & _).
  apply list_elem_of_lookup in Hsl as [n Hn].
  apply lookup_zip_with_Some in Hn as (s' & l' & [= <- <-] & Hs & Hlk).
  pose proof (Forall2_lookup_lr _ _ _ _ _ _ Hpix Hs Hlk) as Hget.
  rewrite Forall_forall in Hpos.
  destruct (Hpos s) as [Hx Hy]; [apply list_elem_of_lookup; eauto|].
  unfold nd_get in Hget. case_decide as Hin; [|done].
  cbn in Hin. lia.
Qed.


(** X14.  When [stage_data] returns, every positive label in its spot table is
    the label of a region that [regionprops] found in the image. *)
Theorem stage_data_labels_are_regions spots coo cells bnd out :
  stage_data' spots coo = Ok (cells, bnd, out) →
  ∃ coo' props,
    relabel_if_needed coo = Ok coo' ∧
    regionprops (astype_int32 (toarray coo')) = Ok props ∧
    ∀ r, r ∈ out → 0 < label r → label r ∈ r_label <$> props.
Proof.
  intros H.
  apply stage_data_Ok_inv_full in H
    as (coo' & inc & props & cb & Hre & _ & Hprops & _ & _ & _ & Hlab & _ & _ & _ & ->).
  exists coo', props. split_and!; [done..|].
  intros r Hr Hpos.
  apply elem_of_merge_spots in Hr as (s & l & Hsl & _ & _ & Hl & _).
  rewrite Hl in *. apply Hlab; [|done].
  apply list_elem_of_fmap. by exists (s, l).
Qed.

Lemma filter_key_NoDup {A} (key : A → Z) (k : Z) (l : list A) :
  NoDup (key <$> l) →
  (length (List.filter (λ a, bool_decide (key a = k)) l) ≤ 1)%nat.
Proof.
  induction l as [|a l IH]; intros Hnd; [cbn; lia|].
  cbn in Hnd. apply NoDup_cons in Hnd as [Hfresh Hnd]. cbn.
  case_bool_decide as Hk; [|by apply IH]. cbn.
  assert (Hnone : List.filter (λ a, bool_decide (key a = k)) l = []).
  { destruct (List.filter _ l) as [|b bs] eqn:Hf; [done|]. exfalso.
    assert (Hb : In b (List.filter (λ a, bool_decide (key a = k)) l))
      by (rewrite Hf; by left).
    apply filter_In in Hb as [Hb Hkb%bool_decide_eq_true].
    apply Hfresh. apply list_elem_of_fmap. exists b.
    split; [congruence|by apply list_elem_of_In]. }
  rewrite Hnone. cbn. lia.
Qed.

Lemma length_bind_le {A B} (f : A → list B) (l : list A) :
  Forall (λ a, (length (f a) ≤ 1)%nat) l → (length (l ≫= f) ≤ length l)%nat.
Proof.
  induction 1 as [|a l Ha _ IH]; [done|].
  rewrite bind_cons, length_app. cbn. lia.
Qed.

Lemma length_bind_eq {A B} (f : A → list B) (l : list A) :
  Forall (λ a, (length (f a) ≤ 1)%nat) l →
  length (l ≫= f) = length l →
  Forall (λ a, length (f a) = 1%nat) l.
Proof.
  induction 1 as [|a l Ha Hall IH]; intros Hlen; [constructor|].
  rewrite bind_cons, length_app in Hlen. cbn in Hlen.
  pose proof (length_bind_le f l Hall).
  constructor; [lia|]. apply IH. lia.
Qed.

(** When the boundary table has one row per label and the join keeps as
    many rows as there are regions, the joined table lists the labels of
    the regions, in their order. *)
Lemma merge_cells_labels (props_df : list (Z * Z * C * C)) (cb : list (Z * P)) :
  NoDup cb.*1 →
  length (merge_cells props_df cb) = length props_df →
  (λ c : Z * Z * C * C * P, c.1.1.1.1) <$> merge_cells props_df cb
  = (λ p : Z * Z * C * C, p.1.1.1) <$> props_df.
Proof.
  intros Hnd Hlen. unfold merge_cells in *.
  apply length_bind_eq in Hlen.
  2: { apply Forall_forall. intros p _. rewrite length_fmap.
       by apply (filter_key_NoDup fst). }
  clear Hnd. induction Hlen as [|p ps Hp _ IH]; [done|].
  rewrite bind_cons, fmap_app, IH. cbn [fmap list_fmap]. f_equal.
  rewrite length_fmap in Hp.
  destruct (List.filter _ cb) as [|b [|b' bs]]; cbn in Hp; try lia. done.
Qed.

(** With at most one cell row per label, the left join keeps the spots as
    they are: one row each, in order. *)
Lemma merge_spots_one_each (sp : list (spot * Z)) (cs : list (Z * Z * C * C * P)) :
  NoDup ((λ c : Z * Z * C * C * P, c.1.1.1.1) <$> cs) →
  (λ r : spot_row C, (x_global r, y_global r, label r, target r)) <$> merge_spots sp cs
  = (λ s : spot * Z, (x s.1, y s.1, s.2, Gene s.1)) <$> sp.
Proof.
  intros Hnd. unfold merge_spots. induction sp as [|[s l] sp IH]; [done|].
  rewrite bind_cons, fmap_app, IH. cbn [fmap list_fmap fst snd]. f_equal.
  pose proof (filter_key_NoDup (λ c : Z * Z * C * C * P, c.1.1.1.1) l cs Hnd) as Hle.
  destruct (List.filter _ cs) as [|c [|c' cs']]; cbn in Hle; try lia; done.
Qed.

Lemma merge_spots_cell_found (sp : list (spot * Z)) (cs : list (Z * Z * C * C * P)) r :
  r ∈ merge_spots sp cs →
  (is_Some (x_cell r) ↔ label r ∈ (λ c : Z * Z * C * C * P, c.1.1.1.1) <$> cs) ∧
  (is_Some (y_cell r) ↔ is_Some (x_cell r)).
Proof.
  unfold merge_spots. intros Hr.
  apply list_elem_of_bind in Hr as ([s l] & Hr & _). cbn [fst snd] in Hr.
  destruct (List.filter _ cs) as [|c cs'] eqn:Hf.
  - apply list_elem_of_singleton in Hr as ->. cbn. split; [|done].
    split; [by intros [? ?]|]. intros Hin. exfalso.
    apply list_elem_of_fmap in Hin as (c & -> & Hc).
    assert (Hc' : In c (List.filter (λ c0 : Z * Z * C * C * P,
                                       bool_decide (c0.1.1.1.1 = c.1.1.1.1)) cs)).
    { apply filter_In. split; [by apply list_elem_of_In|by apply bool_decide_eq_true]. }
    by rewrite Hf in Hc'.
  - assert (Hall : ∀ c', c' ∈ c :: cs' → c' ∈ cs ∧ c'.1.1.1.1 = l).
    { intros c' Hc'. rewrite <- Hf in Hc'.
      apply list_elem_of_In, filter_In in Hc' as [Hc' Hl%bool_decide_eq_true].
      split; [by apply list_elem_of_In|done]. }
    apply list_elem_of_fmap in Hr as (c' & -> & Hc').
    cbn. split; [|done]. split; [intros _|done].
    destruct (Hall c' Hc') as [Hin <-].
    apply list_elem_of_fmap. by exists c'.
Qed.

Lemma stage_data_cells_are_regions spots coo cells bnd out :
  (∀ img ox oy ex cb, extract_borders_dip img ox oy ex = Ok cb → NoDup cb.*1) →
  stage_data' spots coo = Ok (cells, bnd, out) →
  ∃ coo' inc props (cs : list (Z * Z * C * C * P)),
    relabel_if_needed coo = Ok coo' ∧
    inside_cell (ImgCsr (tocsr coo')) (List.filter (mask coo') spots) = Ok inc ∧
    regionprops (astype_int32 (toarray coo')) = Ok props ∧
    (λ c : Z * Z * C * C * P, c.1.1.1.1) <$> cs = r_label <$> props ∧
    (∀ l, l ∈ (zip (List.filter (mask coo') spots) inc).*2 → 0 < l →
          l ∈ r_label <$> props) ∧
    out = merge_spots (zip (List.filter (mask coo') spots) inc) cs.
Proof.
  intros Heb H.
  apply stage_data_Ok_inv_full in H
    as (coo' & inc & props & cb & Hre & Hinc & Hprops & Hcb & Hl1 & _ & Hlab & Hl3 & _ & _ & ->).
  eexists coo', inc, props, _. split_and!; [done..| |done|done].
  rewrite merge_cells_labels.
  - by rewrite <- list_fmap_compose.
  - by eapply Heb.
  - rewrite length_fmap. lia.
Qed.

(** X15.  If [regionprops] reports each label once and [extract_borders_dip]
    returns one row per label, a returned [stage_data] has exactly one row
    for each spot that passed the coordinate filter, in the order of the
    input, with its coordinates and gene unchanged. *)
Theorem stage_data_one_row_per_kept_spot spots coo cells bnd out :
  (∀ img props, regionprops img = Ok props → NoDup (r_label <$> props)) →
  (∀ img ox oy ex cb, extract_borders_dip img ox oy ex = Ok cb → NoDup cb.*1) →
  stage_data' spots coo = Ok (cells, bnd, out) →
  ∃ coo',
    relabel_if_needed coo = Ok coo' ∧
    (λ r : spot_row C, (x_global r, y_global r, target r)) <$> out
    = (λ s, (x s, y s, Gene s)) <$> List.filter (mask coo') spots.
Proof.
  intros Hrp Heb H.
  apply stage_data_cells_are_regions in H
    as (coo' & inc & props & cs & Hre & Hinc & Hprops & Hcs & _ & ->); [|done].
  exists coo'. split; [done|].
  set (kept := List.filter (mask coo') spots) in *.
  assert (Hnd : NoDup ((λ c : Z * Z * C * C * P, c.1.1.1.1) <$> cs)).
  { rewrite Hcs. by eapply Hrp. }
  pose proof (merge_spots_one_each (zip kept inc) cs Hnd) as Hrows.
  apply (f_equal (fmap (λ q : Z * Z * Z * string, (q.1.1.1, q.1.1.2, q.2)))) in Hrows.
  rewrite <- !list_fmap_compose in Hrows.
  etrans; [exact Hrows|].
  assert (Hlen : length kept = length inc).
  { symmetry. by eapply inside_cell_length. }
  rewrite <- (fst_zip kept inc) at 2 by lia.
  by rewrite <- list_fmap_compose.
Qed.

(** X16.  If [extract_borders_dip] returns one row per label, every spot of a
    returned [stage_data] that lies in a cell (positive label) carries the
    centroid of a cell; a spot has cell coordinates exactly when its label
    is the label of a region. *)
Theorem stage_data_cell_coordinates spots coo cells bnd out :
  (∀ img ox oy ex cb, extract_borders_dip img ox oy ex = Ok cb → NoDup cb.*1) →
  stage_data' spots coo = Ok (cells, bnd, out) →
  ∃ coo' props,
    relabel_if_needed coo = Ok coo' ∧
    regionprops (astype_int32 (toarray coo')) = Ok props ∧
    ∀ r, r ∈ out →
      (is_Some (x_cell r) ↔ label r ∈ r_label <$> props) ∧
      (is_Some (y_cell r) ↔ is_Some (x_cell r)) ∧
      (0 < label r → is_Some (x_cell r)).
Proof.
  intros Heb H.
  apply stage_data_cells_are_regions in H
    as (coo' & inc & props & cs & Hre & Hinc & Hprops & Hcs & Hlab & ->); [|done].
  exists coo', props. split_and!; [done..|].
  intros r Hr.
  destruct (merge_spots_cell_found _ cs r Hr) as [Hx Hy]. rewrite Hcs in Hx.
  split_and!; [done..|].
  intros Hpos. apply Hx.
  apply elem_of_merge_spots in Hr as (s & l & Hsl & _ & _ & Hl & _).
  rewrite Hl. apply Hlab; [|by rewrite <- Hl].
  apply list_elem_of_fmap. by exists (s, l).
Qed.

End StageDataMore.

Section StageDataInstances.

Import SpotLabels.

Lemma sample_regionprops_distinct img props :
  SampleData.regionprops img = Ok props → NoDup (r_label <$> props).
Proof.
  intros [= <-]. apply (bool_decide_unpack _). by vm_compute.
Qed.

Lemma sample_borders_distinct img ox oy ex (cb : list (Z * ())) :
  SampleData.extract_borders_dip img ox oy ex = Ok cb → NoDup cb.*1.
Proof.
  intros [= <-]. apply (bool_decide_unpack _). by vm_compute.
Qed.

#[local] Abbreviation sample_stage :=
  (stage_data SampleData.regionprops SampleData.extract_borders_dip
              SampleData.spots SampleData.coo).

(** [inside_cell_in_range] on the sample image (not relabelled) and its two
    spots inside it. *)
Lemma inside_cell_in_range_witness :
  let spots := [ {| Gene := "Npy"; x := 1; y := 1 |};
                 {| Gene := "Vip"; x := 0; y := 1 |} ] in
  Forall (λ s, 0 ≤ x s < Z.of_nat (shape SampleData.coo).2 ∧
               0 ≤ y s < Z.of_nat (shape SampleData.coo).1) spots ∧
  inside_cell (ImgCsr (tocsr SampleData.coo)) spots = Ok [3; 0].
Proof.
  intros spots.
  assert (Hin : Forall (λ s, 0 ≤ x s < Z.of_nat (shape SampleData.coo).2 ∧
                             0 ≤ y s < Z.of_nat (shape SampleData.coo).1) spots).
  { repeat constructor; cbn; lia. }
  split; [exact Hin|].
  exact (inside_cell_in_range SampleData.coo spots Hin).
Defined.

(** [stage_data_no_cells_raises] on the image without stored labels. *)
Lemma stage_data_no_cells_raises_witness :
  entries SampleData.coo_empty = [] ∧
  stage_data SampleData.regionprops SampleData.extract_borders_dip
    SampleData.spots SampleData.coo_empty = Raise ValueError.
Proof.
  split; [reflexivity|].
  exact (stage_data_no_cells_raises SampleData.regionprops
           SampleData.extract_borders_dip SampleData.spots SampleData.coo_empty
           eq_refl).
Defined.

(** [stage_data_spots_inside_image] on the sample pipeline. *)
Lemma stage_data_spots_inside_image_witness :
  ∃ cells bnd out,
    sample_stage = Ok (cells, bnd, out) ∧
    ∀ r, r ∈ out →
      0 ≤ x_global r < Z.of_nat (shape SampleData.coo).2 ∧
      0 ≤ y_global r < Z.of_nat (shape SampleData.coo).1.
Proof.
  destruct sample_stage as [[[cells bnd] out]|e] eqn:Hrun;
    [|by vm_compute in Hrun].
  exists cells, bnd, out. split; [reflexivity|].
  exact (stage_data_spots_inside_image _ _ _ _ _ _ _ Hrun).
Defined.


(** [stage_data_labels_are_regions] on the sample pipeline. *)
Lemma stage_data_labels_are_regions_witness :
  ∃ cells bnd out,
    sample_stage = Ok (cells, bnd, out) ∧
    ∃ coo' props,
      relabel_if_needed SampleData.coo = Ok coo' ∧
      SampleData.regionprops (astype_int32 (toarray coo')) = Ok props ∧
      ∀ r, r ∈ out → 0 < label r → label r ∈ r_label <$> props.
Proof.
  destruct sample_stage as [[[cells bnd] out]|e] eqn:Hrun;
    [|by vm_compute in Hrun].
  exists cells, bnd, out. split; [reflexivity|].
  exact (stage_data_labels_are_regions _ _ _ _ _ _ _ Hrun).
Defined.

(** [stage_data_one_row_per_kept_spot] on the sample pipeline, whose
    collaborators return each label once. *)
Lemma stage_data_one_row_per_kept_spot_witness :
  (∀ img props, SampleData.regionprops img = Ok props → NoDup (r_label <$> props)) ∧
  (∀ img ox oy ex cb,
     SampleData.extract_borders_dip img ox oy ex = Ok cb → NoDup cb.*1) ∧
  ∃ cells bnd out,
    sample_stage = Ok (cells, bnd, out) ∧
    ∃ coo',
      relabel_if_needed SampleData.coo = Ok coo' ∧
      (λ r : spot_row (), (x_global r, y_global r, target r)) <$> out
      = (λ s, (x s, y s, Gene s)) <$> List.filter (mask coo') SampleData.spots.
Proof.
  split; [exact sample_regionprops_distinct|].
  split; [exact sample_borders_distinct|].
  destruct sample_stage as [[[cells bnd] out]|e] eqn:Hrun;
    [|by vm_compute in Hrun].
  exists cells, bnd, out. split; [reflexivity|].
  exact (stage_data_one_row_per_kept_spot _ _ _ _ _ _ _
           sample_regionprops_distinct sample_borders_distinct Hrun).
Defined.

(** [stage_data_cell_coordinates] on the sample pipeline. *)
Lemma stage_data_cell_coordinates_witness :
  (∀ img ox oy ex cb,
     SampleData.extract_borders_dip img ox oy ex = Ok cb → NoDup cb.*1) ∧
  ∃ cells bnd out,
    sample_stage = Ok (cells, bnd, out) ∧
    ∃ coo' props,
      relabel_if_needed SampleData.coo = Ok coo' ∧
      SampleData.regionprops (astype_int32 (toarray coo')) = Ok props ∧
      ∀ r, r ∈ out →
        (is_Some (x_cell r) ↔ label r ∈ r_label <$> props) ∧
        (is_Some (y_cell r) ↔ is_Some (x_cell r)) ∧
        (0 < label r → is_Some (x_cell r)).
Proof.
  split; [exact sample_borders_distinct|].
  destruct sample_stage as [[[cells bnd] out]|e] eqn:Hrun;
    [|by vm_compute in Hrun].
  exists cells, bnd, out. split; [reflexivity|].
  exact (stage_data_cell_coordinates _ _ _ _ _ _ _ sample_borders_distinct Hrun).
Defined.

(** [stage_data_edge_raises] on the sample image and a spot on its right
    edge, next to a spot inside it. *)
Lemma stage_data_edge_raises_witness :
  let s := {| Gene := "Cck"; x := 2; y := 1 |} in
  let spots := [ {| Gene := "Npy"; x := 1; y := 1 |}; s ] in
  ∃ coo',
    relabel_if_needed SampleData.coo = Ok coo' ∧
    s ∈ spots ∧
    mask coo' s = true ∧
    (x s = Z.of_nat (shape coo').2 ∨ y s = Z.of_nat (shape coo').1) ∧
    stage_data SampleData.regionprops SampleData.extract_borders_dip
      spots SampleData.coo = Raise IndexError.
Proof.
  intros s spots.
  destruct (relabel_if_needed SampleData.coo) as [coo'|e] eqn:Hre;
    [|by vm_compute in Hre].
  assert (Hshape : shape coo' = (2%nat, 2%nat)).
  { vm_compute in Hre. by injection Hre as <-. }
  assert (Hs : s ∈ spots) by (apply elem_of_cons; right; apply elem_of_cons; by left).
  assert (Hm : mask coo' s = true) by (unfold mask; by rewrite Hshape).
  assert (Hedge : x s = Z.of_nat (shape coo').2 ∨ y s = Z.of_nat (shape coo').1)
    by (left; by rewrite Hshape).
  exists coo'. split; [reflexivity|]. split; [exact Hs|]. split; [exact Hm|].
  split; [exact Hedge|].
  exact (stage_data_edge_raises SampleData.regionprops
           SampleData.extract_borders_dip spots SampleData.coo coo' s
           Hre Hs Hm Hedge).
Defined.

End StageDataInstances.

(** * Further properties of [reorder_labels] and of the relabelling step *)

Section ReorderMore.

Import SpotLabels.

Lemma sorted_lookup_le u i j a b :
  StronglySorted Z.le u → u !! i = Some a → u !! j = Some b → (i ≤ j)%nat → a ≤ b.
Proof.
  intros Hs. revert i j. induction Hs as [|x u Hs IH Hx]; intros i j Hi Hj Hij; [done|].
  destruct i as [|i], j as [|j]; cbn in *; try lia.
  - simplify_eq. lia.
  - simplify_eq. rewrite Forall_forall in Hx. apply Hx.
    apply list_elem_of_lookup. eauto.
  - eapply IH; eauto. lia.
Qed.

(** The rank of a value among the distinct values of a list is monotone. *)
Lemma rank_lt_iff l v w :
  v ∈ l → w ∈ l →
  (index_of v (np_unique l) < index_of w (np_unique l))%nat ↔ v < w.
Proof.
  intros Hv%elem_of_np_unique Hw%elem_of_np_unique.
  pose proof (sorted_np_unique l) as Hs.
  pose proof (lookup_index_of v _ Hv) as Hiv.
  pose proof (lookup_index_of w _ Hw) as Hiw.
  split.
  - intros Hlt.
    pose proof (sorted_lookup_le _ _ _ _ _ Hs Hiv Hiw ltac:(lia)) as Hle.
    destruct (decide (v = w)) as [->|Hne]; lia.
  - intros Hlt.
    destruct (decide (index_of v (np_unique l) < index_of w (np_unique l))%nat)
      as [|Hge]; [done|].
    pose proof (sorted_lookup_le _ _ _ _ _ Hs Hiw Hiv ltac:(lia)). lia.
Qed.

Lemma lookup_reorder_labels coo p v' :
  nd_flat (toarray (reorder_labels coo)) !! p = Some v' ↔
  ∃ v, nd_flat (toarray coo) !! p = Some v ∧
       v' = Z.of_nat (index_of v (np_unique (nd_flat (toarray coo)))).
Proof.
  rewrite toarray_reorder_labels. cbn [nd_flat]. rewrite list_lookup_fmap.
  destruct (nd_flat (toarray coo) !! p) as [v|]; cbn.
  - split; [intros [= <-]; eauto|]. by intros (v0 & [= <-] & ->).
  - split; [done|]. by intros (v0 & ? & _).
Qed.

(** X17.  [reorder_labels] keeps the order of the labels: between any two
    pixels, the new labels compare as the old ones did, and are equal
    exactly when the old ones were. *)
Theorem reorder_labels_keeps_order coo p q v w v' w' :
  nd_flat (toarray coo) !! p = Some v →
  nd_flat (toarray coo) !! q = Some w →
  nd_flat (toarray (reorder_labels coo)) !! p = Some v' →
  nd_flat (toarray (reorder_labels coo)) !! q = Some w' →
  (v' < w' ↔ v < w) ∧ (v' = w' ↔ v = w).
Proof.
  intros Hp Hq Hp' Hq'.
  apply lookup_reorder_labels in Hp' as (v0 & Hp0 & ->).
  apply lookup_reorder_labels in Hq' as (w0 & Hq0 & ->).
  assert (v0 = v) as -> by congruence. assert (w0 = w) as -> by congruence.
  assert (Hv : v ∈ nd_flat (toarray coo)) by (apply list_elem_of_lookup; eauto).
  assert (Hw : w ∈ nd_flat (toarray coo)) by (apply list_elem_of_lookup; eauto).
  split.
  - rewrite <- (rank_lt_iff _ v w Hv Hw). lia.
  - split; [|by intros ->]. intros Heq%Nat2Z.inj.
    apply (index_of_inj v w (np_unique (nd_flat (toarray coo))));
      [by apply elem_of_np_unique..|done].
Qed.

(** X18.  After [reorder_labels] a pixel is background (0) exactly when it held
    the smallest value of the image, whether that value was 0 or a cell
    label. *)
Theorem reorder_labels_zero_is_minimum coo p v :
  nd_flat (toarray coo) !! p = Some v →
  nd_flat (toarray (reorder_labels coo)) !! p = Some 0 ↔
  ∀ w, w ∈ nd_flat (toarray coo) → v ≤ w.
Proof.
  intros Hp. rewrite lookup_reorder_labels.
  set (flat := nd_flat (toarray coo)) in *.
  assert (Hv : v ∈ np_unique flat)
    by (apply elem_of_np_unique, list_elem_of_lookup; eauto).
  pose proof (sorted_np_unique flat) as Hs.
  pose proof (lookup_index_of v _ Hv) as Hiv.
  split.
  - intros (v0 & Hp0 & H0) w Hw. assert (v0 = v) as -> by congruence.
    assert (Hi : index_of v (np_unique flat) = 0%nat) by lia.
    rewrite Hi in Hiv.
    apply elem_of_np_unique in Hw. pose proof (lookup_index_of w _ Hw) as Hiw.
    eapply (sorted_lookup_le _ 0 _ v w Hs Hiv Hiw). lia.
  - intros Hmin. exists v. split; [done|].
    destruct (np_unique flat) as [|a u] eqn:Hu; [by apply elem_of_nil in Hv|].
    assert (Ha : a ∈ flat) by (apply elem_of_np_unique; rewrite Hu; by left).
    assert (Hav : a ≤ v).
    { apply (sorted_lookup_le (a :: u) 0 (index_of v (a :: u)) a v Hs);
        [done|done|lia]. }
    pose proof (Hmin a Ha). assert (v = a) as -> by lia.
    cbn. by rewrite decide_True.
Qed.

Lemma sorted_of_nat_seq s k : StronglySorted Z.le (Z.of_nat <$> seq s k).
Proof.
  revert s. induction k as [|k IH]; intros s; cbn; constructor; [apply IH|].
  apply Forall_fmap, Forall_forall. intros i Hi%elem_of_seq. cbn. lia.
Qed.

(** The distinct ranks of a list are 0, 1, ..., one per distinct value. *)
Lemma np_unique_ranks l :
  np_unique ((λ v, Z.of_nat (index_of v (np_unique l))) <$> l)
  = Z.of_nat <$> seq 0 (length (np_unique l)).
Proof.
  set (u := np_unique l). set (idx := _ <$> l).
  apply (StronglySorted_unique Z.le);
    [apply sorted_np_unique|apply sorted_of_nat_seq|].
  apply NoDup_Permutation;
    [apply NoDup_np_unique|apply NoDup_fmap_2; [apply _|apply NoDup_seq]|].
  intros x. rewrite elem_of_np_unique. unfold idx.
  rewrite !list_elem_of_fmap. split.
  - intros (v & -> & Hv). exists (index_of v u). split; [done|].
    apply elem_of_seq. split; [lia|]. cbn.
    apply index_of_lt. by apply elem_of_np_unique.
  - intros (i & -> & Hi%elem_of_seq).
    destruct (lookup_lt_is_Some_2 u i) as [v Hv]; [lia|].
    exists v. split.
    + by rewrite (index_of_lookup u i v) by (apply NoDup_np_unique || done).
    + apply elem_of_np_unique, list_elem_of_lookup. eauto.
Qed.

Lemma rank_of_ranks l :
  let idx := (λ v, Z.of_nat (index_of v (np_unique l))) <$> l in
  (λ v, Z.of_nat (index_of v (np_unique idx))) <$> idx = idx.
Proof.
  intros idx. transitivity (id <$> idx); [|apply list_fmap_id].
  apply Forall_fmap_ext_1, Forall_forall. intros x Hx.
  unfold idx in *. rewrite np_unique_ranks.
  apply list_elem_of_fmap in Hx as (v & -> & Hv). cbn. f_equal.
  apply index_of_lookup.
  - apply NoDup_fmap_2; [apply _|apply NoDup_seq].
  - rewrite list_lookup_fmap, lookup_seq_lt; [done|].
    apply index_of_lt. by apply elem_of_np_unique.
Qed.

(** X19.  Relabelling a relabelled image changes nothing. *)
Theorem reorder_labels_idempotent coo :
  reorder_labels (reorder_labels coo) = reorder_labels coo.
Proof.
  unfold reorder_labels at 1. unfold np_unique_inverse, flatten, reshape.
  rewrite toarray_reorder_labels. cbn [nd_flat nd_shape].
  rewrite rank_of_ranks. reflexivity.
Qed.

Lemma NoDup_fmap_filter {A B} (g : A → B) (P : A → bool) (l : list A) :
  NoDup (g <$> l) → NoDup (g <$> List.filter P l).
Proof.
  induction l as [|a l IH]; intros Hnd; [done|].
  cbn in Hnd. apply NoDup_cons in Hnd as [Hfresh Hnd]. cbn.
  destruct (P a); [|by apply IH]. cbn. apply NoDup_cons. split; [|by apply IH].
  intros Hin. apply Hfresh.
  apply list_elem_of_fmap in Hin as (b & -> & Hb).
  apply list_elem_of_In, filter_In in Hb as [Hb _].
  apply list_elem_of_fmap. exists b. split; [done|by apply list_elem_of_In].
Qed.

(** X20.  Whatever the input, [reorder_labels] returns a matrix in canonical
    form: every stored position is inside the shape, no position is stored
    twice, and every stored label is positive. *)
Theorem reorder_labels_canonical coo : coo_canonical (reorder_labels coo).
Proof.
  destruct coo as [[R Cn] es]. set (coo := {| shape := (R, Cn); entries := es |}).
  unfold reorder_labels, np_unique_inverse, flatten, reshape, coo_matrix_of_array.
  cbn [nd_shape nd_flat].
  set (idx := _ <$> nd_flat (toarray coo)).
  assert (Hlen : length idx = ((shape coo).1 * (shape coo).2)%nat).
  { unfold idx. rewrite length_fmap. apply length_toarray. }
  cbn [shape coo fst snd] in Hlen.
  split_and!; cbn [shape entries toarray nd_shape coo fst snd].
  - apply Forall_forall. intros e He.
    apply list_elem_of_In, filter_In in He as [He _]. apply list_elem_of_In in He.
    apply elem_of_lookup_imap in He as (p & v & -> & Hp). cbn [shape fst snd].
    apply lookup_lt_Some in Hp.
    assert (0 < Cn)%nat by (destruct Cn; lia).
    split; [apply Nat.Div0.div_lt_upper_bound; lia|apply Nat.mod_upper_bound; lia].
  - apply NoDup_fmap_filter. rewrite fmap_imap.
    destruct (decide (Cn = 0%nat)) as [->|HCn].
    { destruct idx; [constructor|cbn in Hlen; lia]. }
    rewrite (imap_ext _ (λ p _, ((p / Cn)%nat, (p mod Cn)%nat))) by done.
    rewrite imap_seq_0. apply NoDup_fmap_2_strong; [|apply NoDup_seq].
    intros p q _ _ Heq.
    pose proof (f_equal (λ ij : nat * nat, ij.1) Heq) as Hd.
    pose proof (f_equal (λ ij : nat * nat, ij.2) Heq) as Hm.
    cbn beta in Hd, Hm. cbn [fst snd] in Hd, Hm.
    pose proof (Nat.div_mod_eq p Cn) as Hp.
    pose proof (Nat.div_mod_eq q Cn) as Hq.
    rewrite Hd, Hm in Hp. etrans; [exact Hp|by symmetry].
  - apply Forall_forall. intros e He.
    apply list_elem_of_In, filter_In in He as [He Hnz]. apply list_elem_of_In in He.
    apply negb_true_iff, bool_decide_eq_false in Hnz.
    apply elem_of_lookup_imap in He as (p & v & -> & Hp). cbn [snd] in *.
    unfold idx in Hp. rewrite list_lookup_fmap in Hp.
    destruct (nd_flat (toarray coo) !! p) as [x|]; [|done].
    injection Hp as <-. lia.
Qed.

(** X21.  For a label image whose stored labels are all positive, line 60 leaves
    the image alone exactly when the stored labels are 1..N, and hands it to
    [reorder_labels] otherwise. *)
Theorem relabel_exactly_when_not_consecutive coo :
  entries coo ≠ [] →
  Forall (λ e : nat * nat * Z, 0 < e.2) (entries coo) →
  ((∀ k, k ∈ (list_to_set (data coo) : gset Z) ↔
         1 ≤ k ≤ Z.of_nat (len_set (data coo))) →
   relabel_if_needed coo = Ok coo) ∧
  (¬ (∀ k, k ∈ (list_to_set (data coo) : gset Z) ↔
           1 ≤ k ≤ Z.of_nat (len_set (data coo))) →
   relabel_if_needed coo = Ok (reorder_labels coo)).
Proof.
  intros Hne Hpos. unfold relabel_if_needed.
  destruct (np_max (data coo)) as [m|e] eqn:Hmax.
  2: { unfold data in Hmax. destruct (entries coo); [done|discriminate]. }
  assert (Hpos' : Forall (λ v, 0 < v) (data coo)) by (unfold data; by apply Forall_fmap).
  pose proof (max_eq_count_iff (data coo) m Hpos' Hmax) as Hguard.
  cbn. split; intros Hl.
  - apply Hguard in Hl. by rewrite bool_decide_eq_false_2 by (intros ?; done).
  - rewrite bool_decide_eq_true_2; [done|]. intros Hm. by apply Hl, Hguard.
Qed.

End ReorderMore.

Section ReorderInstances.

Import SpotLabels.

(** [reorder_labels_keeps_order] on the sample image, between its pixels 0
    (label 5) and 3 (label 3). *)
Lemma reorder_labels_keeps_order_witness :
  nd_flat (toarray SampleData.coo) !! 0%nat = Some 5 ∧
  nd_flat (toarray SampleData.coo) !! 3%nat = Some 3 ∧
  nd_flat (toarray (reorder_labels SampleData.coo)) !! 0%nat = Some 2 ∧
  nd_flat (toarray (reorder_labels SampleData.coo)) !! 3%nat = Some 1 ∧
  (2 < 1 ↔ 5 < 3) ∧ (2 = 1 ↔ 5 = 3).
Proof.
  split; [reflexivity|]. split; [reflexivity|]. split; [reflexivity|].
  split; [reflexivity|].
  exact (reorder_labels_keeps_order SampleData.coo 0 3 5 3 2 1
           eq_refl eq_refl eq_refl eq_refl).
Defined.

(** [reorder_labels_zero_is_minimum] on the image without background, at
    its pixel 0, which holds the smallest label, 2. *)
Lemma reorder_labels_zero_is_minimum_witness :
  nd_flat (toarray SampleData.coo_no_background) !! 0%nat = Some 2 ∧
  (nd_flat (toarray (reorder_labels SampleData.coo_no_background)) !! 0%nat = Some 0 ↔
   ∀ w, w ∈ nd_flat (toarray SampleData.coo_no_background) → 2 ≤ w).
Proof.
  split; [reflexivity|].
  exact (reorder_labels_zero_is_minimum SampleData.coo_no_background 0 2 eq_refl).
Defined.

(** [relabel_exactly_when_not_consecutive] on the sample image, whose
    labels 5 and 3 are not 1..2. *)
Lemma relabel_exactly_when_not_consecutive_witness :
  entries SampleData.coo ≠ [] ∧
  Forall (λ e : nat * nat * Z, 0 < e.2) (entries SampleData.coo) ∧
  ((∀ k, k ∈ (list_to_set (data SampleData.coo) : gset Z) ↔
         1 ≤ k ≤ Z.of_nat (len_set (data SampleData.coo))) →
   relabel_if_needed SampleData.coo = Ok SampleData.coo) ∧
  (¬ (∀ k, k ∈ (list_to_set (data SampleData.coo) : gset Z) ↔
           1 ≤ k ≤ Z.of_nat (len_set (data SampleData.coo))) →
   relabel_if_needed SampleData.coo = Ok (reorder_labels SampleData.coo)).
Proof.
  assert (Hne : entries SampleData.coo ≠ []) by done.
  assert (Hpos : Forall (λ e : nat * nat * Z, 0 < e.2) (entries SampleData.coo))
    by (repeat constructor).
  split; [exact Hne|]. split; [exact Hpos|].
  exact (relabel_exactly_when_not_consecutive SampleData.coo Hne Hpos).
Defined.

End ReorderInstances.

(** * Properties of [remap_labels] *)

Section RemapLabels.

Import SpotLabels.

Lemma foldl_insert_list_to_map (d : gmap Z Z) (l : list (Z * Z)) :
  NoDup l.*1 →
  foldl (λ d kv, <[kv.1 := kv.2]> d) d l = list_to_map l ∪ d.
Proof.
  revert d. induction l as [|[k v] l IH]; intros d Hnd; cbn.
  - by rewrite (left_id_L ∅ (∪)).
  - cbn in Hnd. apply NoDup_cons in Hnd as [Hk Hnd].
    rewrite IH by done. rewrite <- insert_union_l.
    symmetry. apply insert_union_r. by apply not_elem_of_list_to_map_1.
Qed.

Lemma foldl_insert_lookup_notin (d : gmap Z Z) (l : list (Z * Z)) k :
  k ∉ l.*1 → foldl (λ d kv, <[kv.1 := kv.2]> d) d l !! k = d !! k.
Proof.
  revert d. induction l as [|[k' v'] l IH]; intros d Hk; [done|].
  cbn in *. apply not_elem_of_cons in Hk as [Hne Hk].
  rewrite IH by done. by rewrite lookup_insert_ne.
Qed.

(** With distinct keys, the dictionary maps the i-th key to the i-th
    value and nothing else. *)
Lemma dict_of_zip_lookup keys vals k v :
  NoDup keys → length keys = length vals →
  dict_of_zip keys vals !! k = Some v ↔
  ∃ i, keys !! i = Some k ∧ vals !! i = Some v.
Proof.
  intros Hnd Hlen. unfold dict_of_zip.
  assert (Hfst : (zip keys vals).*1 = keys) by (apply fst_zip; lia).
  rewrite foldl_insert_list_to_map by (by rewrite Hfst).
  rewrite (right_id_L ∅ (∪)).
  rewrite <- elem_of_list_to_map by (by rewrite Hfst).
  rewrite list_elem_of_lookup. split.
  - intros (i & Hi). apply lookup_zip_with_Some in Hi as (k' & v' & [= <- <-] & ? & ?).
    eauto.
  - intros (i & Hk & Hv). exists i. apply lookup_zip_with_Some. eauto.
Qed.

Lemma dict_of_zip_lookup_None keys vals k :
  k ∉ keys → dict_of_zip keys vals !! k = None.
Proof.
  intros Hk. unfold dict_of_zip. rewrite foldl_insert_lookup_notin; [done|].
  intros Hin. apply Hk. apply list_elem_of_fmap in Hin as ([k' v'] & -> & Hin).
  by apply elem_of_zip_l in Hin.
Qed.

Lemma lookup_all_inr d l :
  (∀ x, x ∈ l → is_Some (d !! x)) →
  ∃ vs, lookup_all d l = inr vs ∧ Forall2 (λ x v, d !! x = Some v) l vs.
Proof.
  induction l as [|x l IH]; intros Hall; [exists []; by split|].
  destruct (Hall x) as [v Hv]; [apply elem_of_cons; by left|].
  destruct IH as (vs & Hvs & Hf2).
  { intros y Hy. apply Hall. apply elem_of_cons. by right. }
  exists (v :: vs). cbn. rewrite Hv, Hvs. split; [done|]. by constructor.
Qed.

Lemma lookup_all_inl d l x :
  x ∈ l → d !! x = None → ∃ k, k ∈ l ∧ d !! k = None ∧ lookup_all d l = inl (KeyError k).
Proof.
  induction l as [|y l IH]; intros Hin Hx; [by apply elem_of_nil in Hin|].
  cbn. destruct (d !! y) as [v|] eqn:Hy.
  - apply elem_of_cons in Hin as [->|Hin]; [congruence|].
    destruct (IH Hin Hx) as (k & Hk & Hdk & ->).
    exists k. split_and!; [|done..]. apply elem_of_cons. by right.
  - exists y. split_and!; [|done..]. apply elem_of_cons. by left.
Qed.

Lemma elem_of_remap_keys m k :
  k ∈ (λ k, 1 + k) <$> seqZ 0 m ↔ 1 ≤ k ≤ m.
Proof.
  rewrite list_elem_of_fmap. split.
  - intros (j & -> & Hj%elem_of_seqZ). lia.
  - intros Hk. exists (k - 1). split; [lia|]. apply elem_of_seqZ. lia.
Qed.

Lemma NoDup_remap_keys m : NoDup ((λ k, 1 + k) <$> seqZ 0 m).
Proof.
  apply NoDup_fmap_2; [|apply NoDup_seqZ]. intros a b. lia.
Qed.

(** X23.  On a matrix whose stored labels are positive (and fit 64 bits), with a
    shuffle that rearranges its argument, [remap_labels] returns a matrix of
    the same shape with the same stored positions, whose labels again lie in
    1..max and are equal exactly where the old labels were equal. *)
Theorem remap_labels_renames shuffle coo m :
  (∀ l, shuffle l ≡ₚ l) →
  np_max (data coo) = Ok m →
  Forall (λ v, 0 < v) (data coo) →
  m < 2 ^ 64 →
  ∃ out,
    remap_labels shuffle coo = inr out ∧
    shape out = shape coo ∧
    (λ e : nat * nat * Z, e.1) <$> entries out
      = (λ e : nat * nat * Z, e.1) <$> entries coo ∧
    Forall (λ v, 1 ≤ v ≤ m) (data out) ∧
    ∀ i j vi vj vi' vj',
      data coo !! i = Some vi → data coo !! j = Some vj →
      data out !! i = Some vi' → data out !! j = Some vj' →
      (vi' = vj' ↔ vi = vj).
Proof.
  intros Hperm Hmax Hpos Hm. unfold remap_labels. rewrite Hmax.
  set (keys := (λ k, 1 + k) <$> seqZ 0 m).
  set (vals := shuffle keys).
  assert (Hpv : vals ≡ₚ keys) by apply Hperm.
  assert (Hndk : NoDup keys) by apply NoDup_remap_keys.
  assert (Hndv : NoDup vals) by (by rewrite Hpv).
  assert (Hlen : length keys = length vals) by (by rewrite Hpv).
  destruct (np_max_spec _ _ Hmax) as [_ Hle]. rewrite Forall_forall in Hpos.
  destruct (lookup_all_inr (dict_of_zip keys vals) (data coo)) as (vs & -> & Hvs).
  { intros x Hx.
    assert (Hk : x ∈ keys) by (apply elem_of_remap_keys; pose proof (Hpos x Hx);
                               pose proof (Hle x Hx); lia).
    apply list_elem_of_lookup in Hk as [i Hi].
    destruct (lookup_lt_is_Some_2 vals i) as [v Hv].
    { rewrite <- Hlen. by eapply lookup_lt_Some. }
    exists v. apply dict_of_zip_lookup; eauto. }
  assert (Hrange : ∀ x v, dict_of_zip keys vals !! x = Some v → 1 ≤ v ≤ m).
  { intros x v Hxv. apply dict_of_zip_lookup in Hxv as (i & _ & Hv); [|done..].
    apply elem_of_remap_keys. fold keys. rewrite <- Hpv.
    apply list_elem_of_lookup. eauto. }
  assert (Hlvs : length (entries coo) = length vs).
  { apply Forall2_length in Hvs. unfold data in Hvs. by rewrite length_fmap in Hvs. }
  assert (Hdata : data {| shape := shape coo;
                          entries := zip_with (λ e v, (e.1, wrap_uint64 v))
                                              (entries coo) vs |} = vs).
  { unfold data. cbn [entries]. apply list_eq. intros i.
    rewrite list_lookup_fmap, lookup_zip_with.
    destruct (entries coo !! i) as [e|] eqn:He; cbn.
    - destruct (vs !! i) as [v|] eqn:Hv; cbn; [|done]. f_equal.
      unfold wrap_uint64. apply Z.mod_small.
      destruct (Forall2_lookup_r _ _ _ _ _ Hvs Hv) as (x & _ & Hxv).
      apply Hrange in Hxv. lia.
    - apply lookup_ge_None in He. symmetry. apply lookup_ge_None. lia. }
  eexists. split; [done|]. rewrite Hdata. split_and!.
  - done.
  - cbn [entries]. apply list_eq. intros i.
    rewrite !list_lookup_fmap, lookup_zip_with.
    destruct (entries coo !! i) as [e|] eqn:He; cbn; [|done].
    destruct (vs !! i) as [v|] eqn:Hv; cbn; [done|].
    apply lookup_ge_None in Hv. apply lookup_lt_Some in He. lia.
  - apply Forall_forall. intros v Hv. apply list_elem_of_lookup in Hv as [i Hv].
    destruct (Forall2_lookup_r _ _ _ _ _ Hvs Hv) as (x & _ & Hxv). by eapply Hrange.
  - intros i j vi vj vi' vj' Hi Hj Hi' Hj'.
    pose proof (Forall2_lookup_lr _ _ _ _ _ _ Hvs Hi Hi') as Hdi.
    pose proof (Forall2_lookup_lr _ _ _ _ _ _ Hvs Hj Hj') as Hdj.
    split; [|intros ->; congruence].
    intros ->.
    apply dict_of_zip_lookup in Hdi as (a & Hka & Hva); [|done..].
    apply dict_of_zip_lookup in Hdj as (b & Hkb & Hvb); [|done..].
    assert (a = b) as -> by (by eapply NoDup_lookup).
    congruence.
Qed.

(** X24.  A stored label that is zero or negative makes [remap_labels] raise
    [KeyError], whatever the shuffle: only 1..max are keys of the
    dictionary. *)
Theorem remap_labels_nonpositive_label shuffle coo x :
  x ∈ data coo → x ≤ 0 →
  ∃ k, k ∈ data coo ∧ remap_labels shuffle coo = inl (KeyError k).
Proof.
  intros Hx Hneg. unfold remap_labels.
  destruct (np_max (data coo)) as [m|e] eqn:Hmax.
  2: { destruct (data coo); [by apply elem_of_nil in Hx|discriminate]. }
  set (keys := (λ k, 1 + k) <$> seqZ 0 m).
  destruct (lookup_all_inl (dict_of_zip keys (shuffle keys)) (data coo) x)
    as (k & Hk & _ & ->); [done| |by exists k].
  apply dict_of_zip_lookup_None. intros Hin%elem_of_remap_keys. lia.
Qed.

End RemapLabels.

Section RemapInstances.

Import SpotLabels.

(** [remap_labels_renames] on the sample image, with the shuffle that
    reverses its argument. *)
Lemma remap_labels_renames_witness :
  (∀ l : list Z, reverse l ≡ₚ l) ∧
  np_max (data SampleData.coo) = Ok 5 ∧
  Forall (λ v, 0 < v) (data SampleData.coo) ∧
  5 < 2 ^ 64 ∧
  ∃ out,
    remap_labels reverse SampleData.coo = inr out ∧
    shape out = shape SampleData.coo ∧
    (λ e : nat * nat * Z, e.1) <$> entries out
      = (λ e : nat * nat * Z, e.1) <$> entries SampleData.coo ∧
    Forall (λ v, 1 ≤ v ≤ 5) (data out) ∧
    ∀ i j vi vj vi' vj',
      data SampleData.coo !! i = Some vi → data SampleData.coo !! j = Some vj →
      data out !! i = Some vi' → data out !! j = Some vj' →
      (vi' = vj' ↔ vi = vj).
Proof.
  assert (Hperm : ∀ l : list Z, reverse l ≡ₚ l) by (intros l; apply reverse_Permutation).
  assert (Hpos : Forall (λ v, 0 < v) (data SampleData.coo)) by (repeat constructor).
  assert (Hm : 5 < 2 ^ 64) by reflexivity.
  split; [exact Hperm|]. split; [reflexivity|]. split; [exact Hpos|].
  split; [exact Hm|].
  exact (remap_labels_renames reverse SampleData.coo 5 Hperm eq_refl Hpos Hm).
Defined.

(** [remap_labels_nonpositive_label] on a matrix that stores a zero. *)
Lemma remap_labels_nonpositive_label_witness :
  0 ∈ data SampleData.coo_explicit_zero ∧
  0 ≤ 0 ∧
  ∃ k, k ∈ data SampleData.coo_explicit_zero ∧
       remap_labels reverse SampleData.coo_explicit_zero = inl (KeyError k).
Proof.
  assert (Hin : 0 ∈ data SampleData.coo_explicit_zero).
  { apply elem_of_cons. right. apply elem_of_cons. by left. }
  assert (Hle : 0 ≤ 0) by reflexivity.
  split; [exact Hin|]. split; [exact Hle|].
  exact (remap_labels_nonpositive_label reverse SampleData.coo_explicit_zero 0 Hin Hle).
Defined.

End RemapInstances.
